(** * Rubinius: compiled-code objects and method tables

    A shallow embedding of [CompiledCode] (vm/builtin/compiled_code.cpp, kept
    in the sources together with the [MethodTable] header) and of the method
    table operations, with the properties of the specification stated over
    them.

    Objects of the managed heap are addressed by references; a method of the
    C++ class becomes a function taking [self] and threading the VM state.
    Collaborators whose code lives elsewhere (bytecode verifier, primitive
    resolver, [MachineCode] constructor, instruction-boundary validation) are
    the members of the class [Externals]. *)

From stdpp Require Import gmap strings list fin_maps.
From Stdlib Require Import ZArith Lia.

Local Open Scope Z_scope.

(** ** Machine integers *)

(** Conversion of a [native_int] to the C [int] a function returns or takes. *)
Definition to_int (z : Z) : Z :=
  let m := z mod 2 ^ 32 in
  if m <? 2 ^ 31 then m else m - 2 ^ 32.

Definition mask32 : Z := Z.ones 32.

(** Conversion to [uint32_t]. *)
Definition to_u32 (z : Z) : Z := Z.land z mask32.

Definition u32 (z : Z) : Prop := 0 <= z < 2 ^ 32.

(** ** Values *)

Definition ref := positive.

Definition Symbol := positive.

(** Tagged object words, as far as these functions tell them apart. *)
Inductive Object : Type :=
  | cNil
  | cTrue
  | cFalse
  | cUndef
  | Fixnum (n : Z)
  | Sym (s : Symbol)
  | Primitives_failure
  | Handle (r : ref).

Definition RBOOL (b : bool) : Object := if b then cTrue else cFalse.

(** Function pointers of type [executor]. The three dispatchers defined in
    this file and the interpreter entry are named; every other function
    (primitives, argument handlers, JIT output) is [fn_other]. A null
    pointer is [None]. *)
Inductive fn : Type :=
  | fn_default_executor
  | fn_specialized_executor
  | fn_primitive_failed
  | fn_MachineCode_execute
  | fn_other (addr : positive).

Definition executor := option fn.

#[global] Instance fn_eq_dec : EqDecision fn.
Proof. solve_decision. Defined.

#[global] Instance Object_eq_dec : EqDecision Object.
Proof. solve_decision. Defined.

(** ** Class data

    [union ClassData { struct { uint32_t class_id; uint32_t serial_id; } f;
    uint64_t raw; }]: one 64-bit word read either whole or by halves. The
    layout chosen puts [class_id] in the low half; nothing below depends on
    which half it is. *)
Record ClassData : Type := { raw : Z }.

Definition f_class_id (d : ClassData) : Z := Z.land (raw d) mask32.
Definition f_serial_id (d : ClassData) : Z := Z.land (Z.shiftr (raw d) 32) mask32.

Definition set_f_class_id (id : Z) (d : ClassData) : ClassData :=
  {| raw := Z.lor (Z.shiftl (Z.shiftr (raw d) 32) 32) (to_u32 id) |}.

Definition set_f_serial_id (id : Z) (d : ClassData) : ClassData :=
  {| raw := Z.lor (Z.shiftl (to_u32 id) 32) (Z.land (raw d) mask32) |}.

(** The class data of a class with identity [cid] and serial [s]. *)
Definition class_data_of (cid s : Z) : ClassData :=
  {| raw := Z.lor (Z.shiftl (to_u32 s) 32) (to_u32 cid) |}.

Record Class : Type := { data : ClassData }.

Definition data_raw (cls : Class) : Z := raw (data cls).

(** ** Machine code *)

Definition RuntimeDataHolder := positive.

Record Specialization : Type := {
  class_data : ClassData;
  spec_execute : executor;
  spec_jit_data : option RuntimeDataHolder
}.

Inductive ExecuteStatus : Type := eInterpret | eJIT | eJITDisable.

Inductive InterpreterRunner : Type := interpreter | debugger_interpreter.

(** The fields of [MachineCode] these functions read or write. The fixed
    array [specializations[cMaxSpecializations]] is a total function on
    indices, only ever read below [cMaxSpecializations]. *)
Record MachineCode : Type := {
  mc_name : Symbol;
  opcodes : list Z;
  run : InterpreterRunner;
  fallback : executor;
  unspecialized : executor;
  specializations : nat → Specialization;
  execute_status : ExecuteStatus;
  debugging : Z
}.

Definition set_run (r : InterpreterRunner) (m : MachineCode) : MachineCode :=
  {| mc_name := mc_name m; opcodes := opcodes m; run := r;
     fallback := fallback m; unspecialized := unspecialized m;
     specializations := specializations m;
     execute_status := execute_status m; debugging := debugging m |}.

Definition set_fallback (e : executor) (m : MachineCode) : MachineCode :=
  {| mc_name := mc_name m; opcodes := opcodes m; run := run m;
     fallback := e; unspecialized := unspecialized m;
     specializations := specializations m;
     execute_status := execute_status m; debugging := debugging m |}.

Definition set_unspecialized_field (e : executor) (m : MachineCode) : MachineCode :=
  {| mc_name := mc_name m; opcodes := opcodes m; run := run m;
     fallback := fallback m; unspecialized := e;
     specializations := specializations m;
     execute_status := execute_status m; debugging := debugging m |}.

Definition set_specializations (a : nat → Specialization) (m : MachineCode)
  : MachineCode :=
  {| mc_name := mc_name m; opcodes := opcodes m; run := run m;
     fallback := fallback m; unspecialized := unspecialized m;
     specializations := a;
     execute_status := execute_status m; debugging := debugging m |}.

Definition set_execute_status (s : ExecuteStatus) (m : MachineCode) : MachineCode :=
  {| mc_name := mc_name m; opcodes := opcodes m; run := run m;
     fallback := fallback m; unspecialized := unspecialized m;
     specializations := specializations m;
     execute_status := s; debugging := debugging m |}.

Definition set_debugging (d : Z) (m : MachineCode) : MachineCode :=
  {| mc_name := mc_name m; opcodes := opcodes m; run := run m;
     fallback := fallback m; unspecialized := unspecialized m;
     specializations := specializations m;
     execute_status := execute_status m; debugging := d |}.

(** [a[i] = x] on the specialization array. *)
Definition array_set (a : nat → Specialization) (i : nat) (x : Specialization)
  : nat → Specialization :=
  λ j, if decide (j = i) then x else a j.

(** ** Compiled code *)

(** The slots of a [CompiledCode] object. [lines] is a tuple of fixnums or
    nil; [breakpoints] a [LookupTable] or nil; [machine_code] a pointer or
    null. *)
Record CompiledCode : Type := {
  (* Executable *)
  primitive : option Symbol;
  execute : executor;
  (* CompiledCode *)
  metadata : Object;
  name : Symbol;
  iseq : list Z;
  stack_size : Z;
  local_count : Z;
  required_args : Z;
  post_args : Z;
  total_args : Z;
  splat : Object;
  lines : option (list Z);
  local_names : Object;
  file : Symbol;
  scope : Object;
  literals : Object;
  breakpoints : option ref;
  machine_code : option ref;
  jit_data : option RuntimeDataHolder
}.

Definition set_executor (e : executor) (c : CompiledCode) : CompiledCode :=
  {| primitive := primitive c; execute := e; metadata := metadata c;
     name := name c; iseq := iseq c; stack_size := stack_size c;
     local_count := local_count c; required_args := required_args c;
     post_args := post_args c; total_args := total_args c; splat := splat c;
     lines := lines c; local_names := local_names c; file := file c;
     scope := scope c; literals := literals c; breakpoints := breakpoints c;
     machine_code := machine_code c; jit_data := jit_data c |}.

Definition set_machine_code (p : option ref) (c : CompiledCode) : CompiledCode :=
  {| primitive := primitive c; execute := execute c; metadata := metadata c;
     name := name c; iseq := iseq c; stack_size := stack_size c;
     local_count := local_count c; required_args := required_args c;
     post_args := post_args c; total_args := total_args c; splat := splat c;
     lines := lines c; local_names := local_names c; file := file c;
     scope := scope c; literals := literals c; breakpoints := breakpoints c;
     machine_code := p; jit_data := jit_data c |}.

Definition set_breakpoints (t : option ref) (c : CompiledCode) : CompiledCode :=
  {| primitive := primitive c; execute := execute c; metadata := metadata c;
     name := name c; iseq := iseq c; stack_size := stack_size c;
     local_count := local_count c; required_args := required_args c;
     post_args := post_args c; total_args := total_args c; splat := splat c;
     lines := lines c; local_names := local_names c; file := file c;
     scope := scope c; literals := literals c; breakpoints := t;
     machine_code := machine_code c; jit_data := jit_data c |}.

Definition set_jit_data (d : option RuntimeDataHolder) (c : CompiledCode)
  : CompiledCode :=
  {| primitive := primitive c; execute := execute c; metadata := metadata c;
     name := name c; iseq := iseq c; stack_size := stack_size c;
     local_count := local_count c; required_args := required_args c;
     post_args := post_args c; total_args := total_args c; splat := splat c;
     lines := lines c; local_names := local_names c; file := file c;
     scope := scope c; literals := literals c; breakpoints := breakpoints c;
     machine_code := machine_code c; jit_data := d |}.

(** ** Line table *)

(** [Tuple::at(index)] followed by [as<Fixnum>(..)->to_native()]; an index
    outside the tuple yields no fixnum. *)
Definition at_ (t : list Z) (index : Z) : option Z :=
  if (index <? 0) || (Z.of_nat (length t) <=? index) then None
  else t !! Z.to_nat index.

(** [CompiledCode::start_line]. *)
Definition start_line (c : CompiledCode) : option Z :=
  match lines c with
  | None => Some (-1)
  | Some t =>
      if Z.of_nat (length t) <? 2 then Some (-1)
      else to_int <$> at_ t 1
  end.

(** The loop of [CompiledCode::line], from index [i]; [fuel] bounds the
    number of iterations. *)
Fixpoint line_loop (fuel : nat) (t : list Z) (fin i ip : Z) : option Z :=
  if i <? fin then
    match fuel with
    | O => None
    | S fuel' =>
        start_ip ← at_ t i;
        end_ip ← at_ t (i + 2);
        if (start_ip <=? ip) && (end_ip >? ip) then to_int <$> at_ t (i + 1)
        else line_loop fuel' t fin (i + 2) ip
    end
  else to_int <$> at_ t (fin + 1).

(** [CompiledCode::line(int ip)]. *)
Definition line (c : CompiledCode) (ip : Z) : option Z :=
  match lines c with
  | None => Some (-3)
  | Some t =>
      let fin := Z.of_nat (length t) - 2 in
      line_loop (length t) t fin 0 ip
  end.

(** The line table as the sequence of (ip, line) pairs it encodes. *)
Definition flat (ps : list (Z * Z)) : list Z :=
  flat_map (λ p, [p.1; p.2]) ps.

(** Pair [i] and its successor bracket [ip]. *)
Definition brackets (ps : list (Z * Z)) (ip : Z) (i : nat) : Prop :=
  ∃ p q, ps !! i = Some p ∧ ps !! S i = Some q ∧ p.1 <= ip < q.1.

(** The line table read pair by pair, as the specification words it: the
    line of the first adjacent pair that brackets [ip], else the last line. *)
Fixpoint line_of_pairs (ps : list (Z * Z)) (ip : Z) : option Z :=
  match ps with
  | [] => None
  | p :: tl =>
      match tl with
      | [] => Some p.2
      | q :: _ =>
          if (p.1 <=? ip) && (ip <? q.1) then Some p.2
          else line_of_pairs tl ip
      end
  end.

(** Start ips in ascending order. *)
Definition ascending (ps : list (Z * Z)) : Prop :=
  ∀ i j p q, (i <= j)%nat → ps !! i = Some p → ps !! j = Some q → p.1 <= q.1.

(** ** Collaborators

    Functions and constants of the virtual machine that these methods call
    and whose code is kept elsewhere. *)
Class Externals : Type := {
  (** Number of slots of the specialization array. *)
  cMaxSpecializations : nat;
  (** Whether the JIT backend is compiled in. *)
  ENABLE_LLVM : bool;
  (** Modelled from the spec: [BytecodeVerifier::verify] is kept elsewhere;
      the specification gives it the contract [verify(code) → ok | fail].
      [internalize] runs it and does not look at its answer. *)
  verify : CompiledCode → bool;
  (** The constructor [MachineCode(state, code)]. *)
  MachineCode_new : CompiledCode → MachineCode;
  (** [Executable::resolve_primitive]: [Some e] when it answers true,
      having set the [execute] slot to [e]. *)
  resolve_primitive : CompiledCode → option executor;
  (** [MachineCode::setup_argument_handler]. *)
  setup_argument_handler : MachineCode → MachineCode;
  (** [MachineCode::validate_ip], a scan of the opcode stream for an
      instruction starting at the given position. *)
  validate_ip : list Z → Z → bool;
  (** [MachineCode::call_sites] and [MachineCode::constant_caches]. *)
  MachineCode_call_sites : MachineCode → Object;
  MachineCode_constant_caches : MachineCode → Object
}.

(** ** VM state *)

(** Modelled from the spec: [LookupTable] (create, store, remove, fetch,
    entries) is kept elsewhere; the breakpoint table is the specification's
    mapping from ip to user data. *)
Abbreviation LookupTable := (gmap Z Object).

Inductive LogEntry : Type :=
  | log_error (msg : string)
  | log_warn (msg : string) (subject : Symbol).

(** The managed heap split by object type, the record of verifier runs
    (one entry per run, naming the code object verified) and the logger's
    output. *)
Record VM : Type := {
  codes : gmap ref CompiledCode;
  mcodes : gmap ref MachineCode;
  tables : gmap ref LookupTable;
  verifier_runs : list ref;
  log : list LogEntry
}.

Definition with_codes (h : gmap ref CompiledCode) (st : VM) : VM :=
  {| codes := h; mcodes := mcodes st; tables := tables st;
     verifier_runs := verifier_runs st; log := log st |}.

Definition with_mcodes (h : gmap ref MachineCode) (st : VM) : VM :=
  {| codes := codes st; mcodes := h; tables := tables st;
     verifier_runs := verifier_runs st; log := log st |}.

Definition with_tables (h : gmap ref LookupTable) (st : VM) : VM :=
  {| codes := codes st; mcodes := mcodes st; tables := h;
     verifier_runs := verifier_runs st; log := log st |}.

Definition with_verifier_runs (l : list ref) (st : VM) : VM :=
  {| codes := codes st; mcodes := mcodes st; tables := tables st;
     verifier_runs := l; log := log st |}.

Definition with_log (l : list LogEntry) (st : VM) : VM :=
  {| codes := codes st; mcodes := mcodes st; tables := tables st;
     verifier_runs := verifier_runs st; log := l |}.

(** How a call ends: normally with a value and the new state, with
    [rubinius::bug] aborting the process, or by following a null or dangling
    pointer. *)
Inductive outcome (A : Type) : Type :=
  | Ok (a : A) (st : VM)
  | Bug (msg : string)
  | Fault.

Arguments Ok {A} a st.
Arguments Bug {A} msg.
Arguments Fault {A}.

Definition M (A : Type) : Type := VM → outcome A.

Definition ret {A} (a : A) : M A := λ st, Ok a st.

Definition bind {A B} (m : M A) (k : A → M B) : M B :=
  λ st, match m st with
        | Ok a st' => k a st'
        | Bug msg => Bug msg
        | Fault => Fault
        end.

Notation "x <- m ;; k" := (bind m (λ x, k))
  (at level 100, m at next level, right associativity).
Notation "m ;;; k" := (bind m (λ _, k))
  (at level 100, right associativity).

Definition bug {A} (msg : string) : M A := λ _, Bug msg.
Definition fault {A} : M A := λ _, Fault.

(** [*self] for a code object. *)
Definition load_code (self : ref) : M CompiledCode :=
  λ st, match codes st !! self with
        | Some c => Ok c st
        | None => Fault
        end.

Definition modify_code (self : ref) (f : CompiledCode → CompiledCode) : M unit :=
  c <- load_code self ;;
  λ st, Ok tt (with_codes (<[self := f c]> (codes st)) st).

(** [*v] for a [MachineCode*]. *)
Definition load_mcode (v : option ref) : M MachineCode :=
  λ st, match v with
        | None => Fault
        | Some p => match mcodes st !! p with
                    | Some m => Ok m st
                    | None => Fault
                    end
        end.

Definition modify_mcode (v : option ref) (f : MachineCode → MachineCode) : M unit :=
  m <- load_mcode v ;;
  λ st, match v with
        | None => Fault
        | Some p => Ok tt (with_mcodes (<[p := f m]> (mcodes st)) st)
        end.

Definition load_table (t : option ref) : M LookupTable :=
  λ st, match t with
        | None => Fault
        | Some r => match tables st !! r with
                    | Some tb => Ok tb st
                    | None => Fault
                    end
        end.

Definition store_table (t : option ref) (tb : LookupTable) : M unit :=
  λ st, match t with
        | None => Fault
        | Some r => Ok tt (with_tables (<[r := tb]> (tables st)) st)
        end.

Definition logger (e : LogEntry) : M unit :=
  λ st, Ok tt (with_log (log st ++ [e]) st).

(** Allocation of a code object, a [MachineCode] and a [LookupTable]. *)
Definition new_code (c : CompiledCode) : M ref :=
  λ st, let r := fresh (dom (codes st)) in
        Ok r (with_codes (<[r := c]> (codes st)) st).

Definition new_mcode (m : MachineCode) : M ref :=
  λ st, let p := fresh (dom (mcodes st)) in
        Ok p (with_mcodes (<[p := m]> (mcodes st)) st).

Definition new_table : M ref :=
  λ st, let t := fresh (dom (tables st)) in
        Ok t (with_tables (<[t := ∅]> (tables st)) st).

(** A run of the bytecode verifier on [self] is put on record. *)
Definition note_verifier_run (self : ref) : M unit :=
  λ st, Ok tt (with_verifier_runs (self :: verifier_runs st) st).

(** Calling through a function pointer: the function control passes to. *)
Definition call (target : executor) : M fn :=
  match target with
  | Some f => ret f
  | None => fault
  end.

Definition non_null (e : executor) : bool :=
  match e with Some _ => true | None => false end.

(** [for(i = 0; i < n; i++) if(P(a[i])) break;] from index [i]: the index
    the loop breaks at, if it does. *)
Fixpoint scan (P : Specialization → bool) (a : nat → Specialization)
    (i n : nat) : option nat :=
  match n with
  | O => None
  | S n' => if P (a i) then Some i else scan P a (S i) n'
  end.

(** ** Methods of [CompiledCode] *)

Section CompiledCode.
Context `{Externals}.

(** [CompiledCode::dup]: a new object receives the slots of [self]
    ([copy_object]), then its executor and machine code are reset. *)
Definition dup (self : ref) : M ref :=
  this <- load_code self ;;
  code <- new_code this ;;
  modify_code code (set_executor (Some fn_default_executor)) ;;;
  modify_code code (set_machine_code None) ;;;
  ret code.

(** [CompiledCode::internalize]. The verifier is run and its answer is not
    looked at: a machine code is built and published in every case, and the
    result is never null. *)
Definition internalize (self : ref) : M (option ref) :=
  this <- load_code self ;;
  match machine_code this with
  | Some mcode => ret (Some mcode)
  | None =>
      (* hard_lock *)
      this <- load_code self ;;
      match machine_code this with
      | Some mcode => ret (Some mcode)
      | None =>
          (* bytecode_verifier.verify(state); *)
          note_verifier_run self ;;;
          let mcode := MachineCode_new this in
          mcode <- match resolve_primitive this with
                   | Some prim =>
                       modify_code self (set_executor prim) ;;;
                       ret (set_fallback prim mcode)
                   | None => ret (setup_argument_handler mcode)
                   end ;;
          p <- new_mcode mcode ;;
          modify_code self (set_machine_code (Some p)) ;;;
          modify_code self (set_executor (fallback mcode)) ;;;
          ret (Some p)
      end
  end.

(** The cache scan shared by [primitive_failed] and
    [specialized_executor]: the matching slot's executor, else
    [unspecialized]. *)
Definition dispatch_target (v : MachineCode) (class_data_raw : Z) : executor :=
  match scan (λ s, (raw (class_data s) =? class_data_raw)
                     && non_null (spec_execute s))
             (specializations v) 0 cMaxSpecializations with
  | Some i => spec_execute (specializations v i)
  | None => unspecialized v
  end.

(** [CompiledCode::primitive_failed]; the result is the function called. *)
Definition primitive_failed (exec : ref) (cls : Class) : M fn :=
  code <- load_code exec ;;
  let class_data := data_raw cls in
  v <- load_mcode (machine_code code) ;;
  let target := dispatch_target v class_data in
  if non_null target then call target
  else ret fn_MachineCode_execute.

(** [CompiledCode::default_executor]; [None] when it returns 0 without
    calling anything. *)
Definition default_executor (exec : ref) : M (option fn) :=
  code <- load_code exec ;;
  ok <- (if decide (execute code = Some fn_default_executor)
         then (r <- internalize exec ;; ret (bool_decide (r ≠ None)))
         else ret true) ;;
  if ok : bool then
    code <- load_code exec ;;
    f <- call (execute code) ;;
    ret (Some f)
  else ret None.

(** [CompiledCode::specialized_executor]; the result is the function
    called. *)
Definition specialized_executor (exec : ref) (cls : Class) : M fn :=
  code <- load_code exec ;;
  let class_data := data_raw cls in
  v <- load_mcode (machine_code code) ;;
  let target := dispatch_target v class_data in
  let target := if non_null target then target else fallback v in
  call target.

(** [CompiledCode::can_specialize_p]. *)
Definition can_specialize_p (self : ref) : M bool :=
  this <- load_code self ;;
  match machine_code this with
  | None => bug "specializing with no backend"
  | Some _ =>
      v <- load_mcode (machine_code this) ;;
      match scan (λ s, raw (class_data s) =? 0)
                 (specializations v) 0 cMaxSpecializations with
      | Some _ => ret true
      | None => ret false
      end
  end.

(** [CompiledCode::set_unspecialized]. *)
Definition set_unspecialized (self : ref) (exec : executor)
    (rd : option RuntimeDataHolder) : M unit :=
  this <- load_code self ;;
  match machine_code this with
  | None => bug "specializing with no backend"
  | Some _ =>
      modify_mcode (machine_code this) (set_execute_status eJIT) ;;;
      (if ENABLE_LLVM then modify_code self (set_jit_data rd) else ret tt) ;;;
      modify_mcode (machine_code this) (set_unspecialized_field exec) ;;;
      v <- load_mcode (machine_code this) ;;
      match scan (λ s, raw (class_data s) >? 0)
                 (specializations v) 0 cMaxSpecializations with
      | Some _ => ret tt
      | None =>
          match primitive this with
          | None => modify_code self (set_executor exec)
          | Some _ => ret tt
          end
      end
  end.

(** The four stores into [v->specializations[i]]. *)
Definition install (a : nat → Specialization) (i : nat)
    (class_id serial_id : Z) (exec : executor)
    (rd : option RuntimeDataHolder) : nat → Specialization :=
  array_set a i
    {| class_data := set_f_serial_id serial_id
                       (set_f_class_id class_id (class_data (a i)));
       spec_execute := exec;
       spec_jit_data := rd |}.

(** [CompiledCode::add_specialized]. *)
Definition add_specialized (self : ref) (class_id serial_id : Z)
    (exec : executor) (rd : option RuntimeDataHolder) : M unit :=
  this <- load_code self ;;
  match machine_code this with
  | None => logger (log_error "specializing with no backend")
  | Some _ =>
      v <- load_mcode (machine_code this) ;;
      let found :=
        scan (λ s, let id := f_class_id (class_data s) in
                   (id =? 0) || (id =? to_u32 class_id))
             (specializations v) 0 cMaxSpecializations in
      i <- match found with
           | Some i => ret i
           | None =>
               logger (log_warn "Specialization space exceeded for "
                                (mc_name v)) ;;;
               ret O
           end ;;
      modify_mcode (machine_code this)
        (λ v, set_specializations
                (install (specializations v) i class_id serial_id exec rd) v) ;;;
      modify_mcode (machine_code this) (set_execute_status eJIT) ;;;
      match primitive this with
      | None => modify_code self (set_executor (Some fn_specialized_executor))
      | Some _ => ret tt
      end
  end.

(** [CompiledCode::find_specialized]. *)
Definition find_specialized (self : ref) (cls : Class) : M executor :=
  this <- load_code self ;;
  match machine_code this with
  | None => ret None
  | Some _ =>
      v <- load_mcode (machine_code this) ;;
      match scan (λ s, raw (class_data s) =? data_raw cls)
                 (specializations v) 0 cMaxSpecializations with
      | Some i => ret (spec_execute (specializations v i))
      | None => ret None
      end
  end.

(** [CompiledCode::call_sites]. *)
Definition call_sites (self : ref) : M Object :=
  this <- load_code self ;;
  r <- match machine_code this with
       | None => internalize self
       | Some p => ret (Some p)
       end ;;
  match r with
  | None => ret Primitives_failure
  | Some _ =>
      this <- load_code self ;;
      mcode <- load_mcode (machine_code this) ;;
      ret (MachineCode_call_sites mcode)
  end.

(** [CompiledCode::constant_caches]. *)
Definition constant_caches (self : ref) : M Object :=
  this <- load_code self ;;
  r <- match machine_code this with
       | None => internalize self
       | Some p => ret (Some p)
       end ;;
  match r with
  | None => ret Primitives_failure
  | Some _ =>
      this <- load_code self ;;
      mcode <- load_mcode (machine_code this) ;;
      ret (MachineCode_constant_caches mcode)
  end.

(** [CompiledCode::set_breakpoint]. *)
Definition set_breakpoint (self : ref) (ip : Z) (bp : Object) : M Object :=
  let i := to_int ip in
  this <- load_code self ;;
  r <- match machine_code this with
       | None => internalize self
       | Some p => ret (Some p)
       end ;;
  match r with
  | None => ret Primitives_failure
  | Some _ =>
      this <- load_code self ;;
      v <- load_mcode (machine_code this) ;;
      if negb (validate_ip (opcodes v) i) then ret Primitives_failure
      else
        (match breakpoints this with
         | None =>
             t <- new_table ;;
             modify_code self (set_breakpoints (Some t))
         | Some _ => ret tt
         end) ;;;
        this <- load_code self ;;
        tb <- load_table (breakpoints this) ;;
        store_table (breakpoints this) (<[ip := bp]> tb) ;;;
        modify_mcode (machine_code this) (set_debugging 1) ;;;
        modify_mcode (machine_code this) (set_run debugger_interpreter) ;;;
        ret (Fixnum ip)
  end.

(** [CompiledCode::clear_breakpoint]. *)
Definition clear_breakpoint (self : ref) (ip : Z) : M Object :=
  let i := to_int ip in
  this <- load_code self ;;
  match machine_code this with
  | None => ret (Fixnum ip)
  | Some _ =>
      v <- load_mcode (machine_code this) ;;
      if negb (validate_ip (opcodes v) i) then ret Primitives_failure
      else
        match breakpoints this with
        | None => ret (RBOOL false)
        | Some _ =>
            tb <- load_table (breakpoints this) ;;
            let removed := bool_decide (is_Some (tb !! ip)) in
            store_table (breakpoints this) (delete ip tb) ;;;
            tb <- load_table (breakpoints this) ;;
            (if Z.of_nat (size tb) =? 0 then
               modify_mcode (machine_code this) (set_debugging 0) ;;;
               modify_mcode (machine_code this) (set_run interpreter)
             else ret tt) ;;;
            ret (RBOOL removed)
        end
  end.

(** [CompiledCode::is_breakpoint]. *)
Definition is_breakpoint (self : ref) (ip : Z) : M Object :=
  let i := to_int ip in
  this <- load_code self ;;
  match machine_code this with
  | None => ret cFalse
  | Some _ =>
      v <- load_mcode (machine_code this) ;;
      if negb (validate_ip (opcodes v) i) then ret Primitives_failure
      else
        match breakpoints this with
        | None => ret cFalse
        | Some _ =>
            tb <- load_table (breakpoints this) ;;
            let found := bool_decide (is_Some (tb !! ip)) in
            ret (RBOOL found)
        end
  end.

(** *** Sequences of calls

    A client of the code-object interface: any of the methods above,
    applied to any object, results dropped. *)
Inductive api : Type :=
  | api_dup (self : ref)
  | api_internalize (self : ref)
  | api_call_sites (self : ref)
  | api_constant_caches (self : ref)
  | api_default_executor (self : ref)
  | api_specialized_executor (self : ref) (cls : Class)
  | api_primitive_failed (self : ref) (cls : Class)
  | api_can_specialize_p (self : ref)
  | api_set_unspecialized (self : ref) (exec : executor)
      (rd : option RuntimeDataHolder)
  | api_add_specialized (self : ref) (class_id serial_id : Z)
      (exec : executor) (rd : option RuntimeDataHolder)
  | api_find_specialized (self : ref) (cls : Class)
  | api_set_breakpoint (self : ref) (ip : Z) (bp : Object)
  | api_clear_breakpoint (self : ref) (ip : Z)
  | api_is_breakpoint (self : ref) (ip : Z).

Definition perform (a : api) : M unit :=
  match a with
  | api_dup self => dup self ;;; ret tt
  | api_internalize self => internalize self ;;; ret tt
  | api_call_sites self => call_sites self ;;; ret tt
  | api_constant_caches self => constant_caches self ;;; ret tt
  | api_default_executor self => default_executor self ;;; ret tt
  | api_specialized_executor self cls =>
      specialized_executor self cls ;;; ret tt
  | api_primitive_failed self cls => primitive_failed self cls ;;; ret tt
  | api_can_specialize_p self => can_specialize_p self ;;; ret tt
  | api_set_unspecialized self exec rd => set_unspecialized self exec rd
  | api_add_specialized self cid sid exec rd =>
      add_specialized self cid sid exec rd
  | api_find_specialized self cls => find_specialized self cls ;;; ret tt
  | api_set_breakpoint self ip bp => set_breakpoint self ip bp ;;; ret tt
  | api_clear_breakpoint self ip => clear_breakpoint self ip ;;; ret tt
  | api_is_breakpoint self ip => is_breakpoint self ip ;;; ret tt
  end.

Fixpoint perform_all (l : list api) : M unit :=
  match l with
  | [] => ret tt
  | a :: l' => perform a ;;; perform_all l'
  end.

End CompiledCode.

(** ** Predicates on states *)

(** Slot [j] of [v] is free or already holds class [cid]. *)
Definition takes (v : MachineCode) (cid : Z) (j : nat) : Prop :=
  f_class_id (class_data (specializations v j)) = 0 ∨
  f_class_id (class_data (specializations v j)) = cid.

(** Code object [r] holds machine code [p]. *)
Definition internalized (st : VM) (r p : ref) : Prop :=
  ∃ c, codes st !! r = Some c ∧ machine_code c = Some p.

(** From [st] to [st'] every machine code stays where it is, and the
    verifier ran only on objects that had none in [st]. *)
Definition keeps (st st' : VM) : Prop :=
  (∀ r p, internalized st r p → internalized st' r p) ∧
  ∃ new, verifier_runs st' = new ++ verifier_runs st ∧
         ∀ r, r ∈ new → ∀ p, ¬ internalized st r p.

Definition keeping {A} (m : M A) : Prop :=
  ∀ st a st', m st = Ok a st' → keeps st st'.

(** The number of breakpoints set on a code object, when it has a table. *)
Definition breakpoint_count (st : VM) (self : ref) : option nat :=
  c ← codes st !! self;
  t ← breakpoints c;
  tb ← tables st !! t;
  Some (size tb).

(** * Method tables

    Only the declarations of [MethodTableBucket] and [MethodTable] are in
    the sources. *)

Module MethodTable.

(** The slots of [MethodTableBucket]; the visibility tag is a symbol, the
    [next] link is the tail of the chain the bucket is in. *)
Record Bucket : Type := {
  name : Symbol;
  visibility : Symbol;
  method_id : Object;
  method : Object;
  scope : Object;
  serial : Z
}.

(** The slots of [MethodTable]: one chain per bin. *)
Record table : Type := {
  values : list (list Bucket);
  bins : nat;
  entries : nat
}.

(** The symbol interner, as far as the table needs it. *)
Class Interner : Type := { symbol_hash : Symbol → nat }.

Definition METHODTABLE_MIN_SIZE : nat := 16.

Section Operations.
Context `{Interner}.

(** Modelled from the spec: the bin index is
    [symbol_hash(name) & (bins − 1)]; the function is not in the
    sources. *)
Definition find_bin (hash bins : nat) : nat := Nat.land hash (bins - 1).

Definition bin_of (t : table) (n : Symbol) : nat :=
  find_bin (symbol_hash n) (bins t).

(** Modelled from the spec: rounding up to a power of two, by doubling [p]
    until it reaches [size]. *)
Fixpoint round_up (fuel p size : nat) : nat :=
  match fuel with
  | O => p
  | S fuel' => if (size <=? p)%nat then p else round_up fuel' (2 * p) size
  end.

(** Modelled from the spec: [MethodTable::create] is not in the sources;
    it allocates [max(size, 16)] bins, rounded up to a power of two. *)
Definition create (size : nat) : table :=
  let n := Nat.max size METHODTABLE_MIN_SIZE in
  let b := round_up n METHODTABLE_MIN_SIZE n in
  {| values := replicate b []; bins := b; entries := 0 |}.

(** Modelled from the spec: the walk along a chain, comparing symbol
    identities; the first bucket found wins. *)
Fixpoint find_in_chain (n : Symbol) (chain : list Bucket) : option Bucket :=
  match chain with
  | [] => None
  | b :: next => if decide (name b = n) then Some b
                 else find_in_chain n next
  end.

(** Modelled from the spec: [MethodTable::lookup] is not in the sources;
    it reads [values], hashes the name and walks the chain of its bin. *)
Definition lookup (t : table) (n : Symbol) : option Bucket :=
  chain ← values t !! bin_of t n;
  find_in_chain n chain.

(** Modelled from the spec: [find_entry] has the shape of [lookup]. *)
Definition find_entry (t : table) (n : Symbol) : option Bucket := lookup t n.

(** Modelled from the spec: [has_name]. *)
Definition has_name (t : table) (n : Symbol) : bool :=
  bool_decide (is_Some (lookup t n)).

(** Modelled from the spec: the bucket of [b]'s name overwritten in place,
    chain position kept, if the chain has one. *)
Fixpoint overwrite (b : Bucket) (chain : list Bucket) : option (list Bucket) :=
  match chain with
  | [] => None
  | x :: next =>
      if decide (name x = name b) then Some (b :: next)
      else (x ::.) <$> overwrite b next
  end.

(** Modelled from the spec: the resize is not in the sources; it
    allocates a [values] of the new size and rehashes every bucket into
    it. *)
Definition redistribute (t : table) (size : nat) : table :=
  {| values :=
       foldl (λ vals b,
                alter (b ::.) (find_bin (symbol_hash (name b)) size) vals)
             (replicate size []) (concat (values t));
     bins := size;
     entries := entries t |}.

(** Modelled from the spec: [MethodTable::store] is not in the sources;
    it locates the bin, overwrites in place a bucket of the same name,
    else prepends a new bucket to the chain, increments [entries] and
    resizes to twice the bins when [entries == bins]. *)
Definition store (t : table) (n : Symbol) (mid m sc : Object) (ser : Z)
    (vis : Symbol) : table :=
  let b := {| name := n; visibility := vis; method_id := mid;
              method := m; scope := sc; serial := ser |} in
  let i := bin_of t n in
  match values t !! i with
  | None => t
  | Some chain =>
      match overwrite b chain with
      | Some chain' =>
          {| values := <[i := chain']> (values t); bins := bins t;
             entries := entries t |}
      | None =>
          let t' := {| values := <[i := b :: chain]> (values t);
                       bins := bins t; entries := S (entries t) |} in
          if (entries t' =? bins t')%nat
          then redistribute t' (2 * bins t')
          else t'
      end
  end.

(** Modelled from the spec: the bucket named [n] unlinked from a chain. *)
Fixpoint unlink (n : Symbol) (chain : list Bucket)
  : option (Bucket * list Bucket) :=
  match chain with
  | [] => None
  | x :: next =>
      if decide (name x = n) then Some (x, next)
      else '(b, rest) ← unlink n next; Some (b, x :: rest)
  end.

(** Modelled from the spec: [MethodTable::remove] is not in the sources;
    it locates and unlinks the bucket, decrements [entries] and returns
    the prior method, or absent. *)
Definition remove (t : table) (n : Symbol) : option Object * table :=
  let i := bin_of t n in
  match values t !! i with
  | None => (None, t)
  | Some chain =>
      match unlink n chain with
      | Some (b, chain') =>
          (Some (method b),
           {| values := <[i := chain']> (values t); bins := bins t;
              entries := Nat.pred (entries t) |})
      | None => (None, t)
      end
  end.

(** [store] with the fields of a bucket for arguments. *)
Definition store_bucket (t : table) (b : Bucket) : table :=
  store t (name b) (method_id b) (method b) (scope b) (serial b)
        (visibility b).

(** Modelled from the spec: [MethodTable::duplicate] is not in the
    sources; a fresh table of the same bin count receives equivalent
    buckets. *)
Definition duplicate (t : table) : table :=
  foldl store_bucket (create (bins t)) (concat (values t)).

(** All buckets reachable in a table. *)
Definition buckets (t : table) : list Bucket := concat (values t).

(** Modelled from the spec: the invariants of the data model, one chain
    per bin, every bucket in the bin of its name, names unique, [entries]
    the number of reachable buckets. *)
Record wf (t : table) : Prop := {
  wf_length : length (values t) = bins t;
  wf_bins : (0 < bins t)%nat;
  wf_bin : ∀ i chain b, values t !! i = Some chain → b ∈ chain →
                        bin_of t (name b) = i;
  wf_names : NoDup (name <$> buckets t);
  wf_entries : entries t = length (buckets t)
}.

End Operations.

End MethodTable.

(** An interner that hashes a symbol to its index. *)
Definition demo_interner : MethodTable.Interner :=
  {| MethodTable.symbol_hash := Pos.to_nat |}.

(** * More of the code *)

(** ** Invariants of a code object *)

(** The specialization array as registrations with non-zero class ids
    leave it: no class id in two slots, free slots after the used ones, and
    a free slot zeroed as a whole. *)
Definition cache_wf (n : nat) (a : nat → Specialization) : Prop :=
  (∀ i j, (i < n)%nat → (j < n)%nat →
          f_class_id (class_data (a i)) ≠ 0 →
          f_class_id (class_data (a i)) = f_class_id (class_data (a j)) →
          i = j) ∧
  (∀ i j, (i <= j)%nat → (j < n)%nat →
          f_class_id (class_data (a i)) = 0 →
          f_class_id (class_data (a j)) = 0) ∧
  (∀ i, (i < n)%nat → f_class_id (class_data (a i)) = 0 →
        raw (class_data (a i)) = 0).

(** While [self] has a breakpoint, its machine code is in debugging mode. *)
Definition debugging_while_breakpoints (st : VM) (self : ref) : Prop :=
  ∀ c p v t tb,
    codes st !! self = Some c → machine_code c = Some p →
    mcodes st !! p = Some v → breakpoints c = Some t →
    tables st !! t = Some tb → tb ≠ ∅ →
    debugging v = 1 ∧ run v = debugger_interpreter.

(** The breakpoint table a code object sees; none counts as empty. *)
Definition breakpoint_table (st : VM) (c : CompiledCode) : LookupTable :=
  match breakpoints c with
  | Some t => default ∅ (tables st !! t)
  | None => ∅
  end.

(** ** Opcode references under the collector *)

(** The marking callback [memory::ObjectMark] of the collector: [call]
    answers the new address of an object it moved, or null (0); [just_set]
    is told of a store into [code]. Both act on the collector's state. *)
Record ObjectMark (G : Type) : Type := {
  mark_call : Z → G → Z * G;
  mark_just_set : ref → Z → G → G
}.

Arguments mark_call {G} _ _ _.
Arguments mark_just_set {G} _ _ _ _.

(** The last loop of [CompiledCode::Info::mark]: every non-zero entry of
    [references] is a position in the opcode stream holding an object
    reference, handed to the callback and overwritten if the object moved.
    A position outside the stream ends the walk with no result. *)
Fixpoint mark_references {G} (mark : ObjectMark G) (code : ref)
    (references : list nat) (opcodes : list Z) (g : G)
  : option (list Z * G) :=
  match references with
  | [] => Some (opcodes, g)
  | ip :: rest =>
      match ip with
      | O => mark_references mark code rest opcodes g
      | S _ =>
          match opcodes !! ip with
          | None => None
          | Some ref =>
              let '(updated_ref, g1) := mark_call mark ref g in
              if updated_ref =? 0
              then mark_references mark code rest opcodes g1
              else mark_references mark code rest
                     (<[ip := updated_ref]> opcodes)
                     (mark_just_set mark code updated_ref g1)
          end
      end
  end.

(** ** File names *)

Definition char_code (c : Ascii.ascii) : Z := Z.of_N (Ascii.N_of_ascii c).

(** [strncmp] of the C library on two NUL-terminated buffers, the end of a
    string being its terminator. *)
Fixpoint strncmp (s1 s2 : string) (n : nat) {struct n} : Z :=
  match n with
  | O => 0
  | S n' =>
      match s1, s2 with
      | String.EmptyString, String.EmptyString => 0
      | String.EmptyString, String.String c2 _ => - char_code c2
      | String.String c1 _, String.EmptyString => char_code c1
      | String.String c1 r1, String.String c2 r2 =>
          if char_code c1 =? char_code c2
          then (if char_code c1 =? 0 then 0 else strncmp r1 r2 n')
          else char_code c1 - char_code c2
      end
  end.

(** [CompiledCode::core_method]; [cpp_str] is [Symbol::cpp_str]. *)
Definition core_method (cpp_str : Symbol → string) (c : CompiledCode) : bool :=
  let s := cpp_str (file c) in
  (5 <=? Z.of_nat (String.length s)) && (strncmp s "core/" 5 =? 0).

(** * A small virtual machine

    A concrete set of collaborators and a few heaps, on which the
    properties below are exercised: eight specialization slots, a verifier
    that accepts any non-empty instruction sequence, every position of the
    opcode stream an instruction boundary. *)

Definition demo_slot : Specialization :=
  {| class_data := {| raw := 0 |}; spec_execute := None; spec_jit_data := None |}.

Definition demo_MachineCode_new (c : CompiledCode) : MachineCode :=
  {| mc_name := name c; opcodes := iseq c; run := interpreter;
     fallback := None; unspecialized := None;
     specializations := λ _, demo_slot;
     execute_status := eInterpret; debugging := 0 |}.

Definition demo : Externals :=
  {| cMaxSpecializations := 8;
     ENABLE_LLVM := false;
     verify := λ c, negb (bool_decide (iseq c = []));
     MachineCode_new := demo_MachineCode_new;
     resolve_primitive := λ _, None;
     setup_argument_handler := set_fallback (Some fn_MachineCode_execute);
     validate_ip := λ ops i, (0 <=? i) && (i <? Z.of_nat (length ops));
     MachineCode_call_sites := λ _, cNil;
     MachineCode_constant_caches := λ _, cNil |}.

Definition demo_code (bytecode : list Z) (ls : option (list Z)) : CompiledCode :=
  {| primitive := None; execute := Some fn_default_executor;
     metadata := cNil; name := 7%positive; iseq := bytecode;
     stack_size := 2; local_count := 0; required_args := 0; post_args := 0;
     total_args := 0; splat := cNil; lines := ls; local_names := cNil;
     file := 9%positive; scope := cNil; literals := cNil;
     breakpoints := None; machine_code := None; jit_data := None |}.

(** A heap holding the single code object [c] at address 1. *)
Definition demo_vm (c : CompiledCode) : VM :=
  {| codes := {[ 1%positive := c ]}; mcodes := ∅; tables := ∅;
     verifier_runs := []; log := [] |}.

Definition demo_good : CompiledCode :=
  demo_code [1; 2; 3; 4; 5; 6] (Some [0; 10; 4; 12; 9; 15]).

Definition demo_bad : CompiledCode := demo_code [] None.

(** A code object whose line table is not in ascending ip order: the pairs
    (5, 1) (3, 2) (20, 3). *)
Definition demo_unordered : CompiledCode :=
  demo_code [1; 2; 3] (Some [5; 1; 3; 2; 20; 3]).

(** The state a call ends in. *)
Definition state_of {A} (o : outcome A) (default : VM) : VM :=
  match o with
  | Ok _ st => st
  | _ => default
  end.

(** [demo_good] internalized: its code object, its machine code and the
    heap that holds them. *)
Definition demo_good_code : CompiledCode :=
  set_executor (Some fn_MachineCode_execute)
    (set_machine_code (Some 1%positive) demo_good).

Definition demo_good_mcode : MachineCode :=
  set_fallback (Some fn_MachineCode_execute) (demo_MachineCode_new demo_good).

Definition demo_internalized : VM :=
  {| codes := {[ 1%positive := demo_good_code ]};
     mcodes := {[ 1%positive := demo_good_mcode ]};
     tables := ∅; verifier_runs := [1%positive]; log := [] |}.

(** A class with identity 7 and serial 1. *)
Definition demo_class : Class := {| data := class_data_of 7 1 |}.

(** The cache filled with classes 1 to 7, then class id 0 registered with
    serial 5. *)
Definition demo_filled : VM :=
  state_of
    ((@add_specialized demo 1%positive 1 1 (Some (fn_other 1)) None ;;;
      @add_specialized demo 1%positive 2 1 (Some (fn_other 2)) None ;;;
      @add_specialized demo 1%positive 3 1 (Some (fn_other 3)) None ;;;
      @add_specialized demo 1%positive 4 1 (Some (fn_other 4)) None ;;;
      @add_specialized demo 1%positive 5 1 (Some (fn_other 5)) None ;;;
      @add_specialized demo 1%positive 6 1 (Some (fn_other 6)) None ;;;
      @add_specialized demo 1%positive 7 1 (Some (fn_other 7)) None ;;;
      @add_specialized demo 1%positive 0 5 (Some (fn_other 8)) None)
       demo_internalized)
    demo_internalized.

(** A code object with an empty line tuple. *)
Definition demo_empty_lines : CompiledCode := demo_code [1; 2] (Some []).

(** The internalized [demo_good] with class (7, 1) registered. *)
Definition demo_registered : VM :=
  state_of
    (@add_specialized demo 1%positive 7 1 (Some (fn_other 1)) None
       demo_internalized)
    demo_internalized.

Definition demo_registered_mcode : MachineCode :=
  set_execute_status eJIT
    (set_specializations
       (@install (specializations demo_good_mcode) O 7 1
          (Some (fn_other 1)) None)
       demo_good_mcode).

(** The internalized [demo_good] after a copy was made and a breakpoint
    set. *)
Definition demo_calls : list api :=
  [api_dup 1%positive; api_set_breakpoint 1%positive 4 cTrue].

Definition demo_after_calls : VM :=
  state_of (@perform_all demo demo_calls demo_internalized) demo_internalized.

(** A collector that moved the object at 100 to 200 and nothing else, and
    keeps a list of the stores it was told of. *)
Definition demo_mark : ObjectMark (list Z) :=
  {| mark_call := λ r g, (if r =? 100 then 200 else 0, g);
     mark_just_set := λ _ r g, r :: g |}.

(** * Properties *)

(** ** Line table *)

Lemma length_flat ps : length (flat ps) = (2 * length ps)%nat.
Proof. induction ps as [|p ps IH]; simpl; lia. Qed.

Lemma flat_lookup_fst ps (k : nat) :
  flat ps !! (2 * k)%nat = fst <$> ps !! k.
Proof.
  revert k. induction ps as [|p ps IH]; intros [|k]; simpl; try done.
  replace (k + S (k + 0))%nat with (S (2 * k)) by lia. simpl. apply IH.
Qed.

Lemma flat_lookup_snd ps (k : nat) :
  flat ps !! S (2 * k) = snd <$> ps !! k.
Proof.
  revert k. induction ps as [|p ps IH]; intros [|k]; simpl; try done.
  replace (k + S (k + 0))%nat with (S (2 * k)) by lia. simpl. apply IH.
Qed.

Lemma at_flat_fst ps (k : nat) :
  at_ (flat ps) (2 * Z.of_nat k) = fst <$> ps !! k.
Proof.
  unfold at_. rewrite length_flat.
  destruct (decide (k < length ps)%nat) as [Hk|Hk].
  - replace (_ || _) with false
      by (symmetry; apply orb_false_iff; split;
          [apply Z.ltb_ge | apply Z.leb_gt]; lia).
    replace (Z.to_nat (2 * Z.of_nat k)) with (2 * k)%nat by lia.
    apply flat_lookup_fst.
  - rewrite (lookup_ge_None_2 ps k) by lia.
    replace (_ || _) with true; [done|].
    symmetry. apply orb_true_iff. right. apply Z.leb_le. lia.
Qed.

Lemma at_flat_snd ps (k : nat) :
  at_ (flat ps) (2 * Z.of_nat k + 1) = snd <$> ps !! k.
Proof.
  unfold at_. rewrite length_flat.
  destruct (decide (k < length ps)%nat) as [Hk|Hk].
  - replace (_ || _) with false
      by (symmetry; apply orb_false_iff; split;
          [apply Z.ltb_ge | apply Z.leb_gt]; lia).
    replace (Z.to_nat (2 * Z.of_nat k + 1)) with (S (2 * k)) by lia.
    apply flat_lookup_snd.
  - rewrite (lookup_ge_None_2 ps k) by lia.
    replace (_ || _) with true; [done|].
    symmetry. apply orb_true_iff. right. apply Z.leb_le. lia.
Qed.

(** The index loop over the flat tuple reads the table pair by pair. *)
Lemma line_loop_pairs ps ip (fuel k : nat) :
  (k < length ps)%nat → (length ps - k <= fuel)%nat →
  line_loop fuel (flat ps) (Z.of_nat (length (flat ps)) - 2)
            (2 * Z.of_nat k) ip
  = to_int <$> line_of_pairs (drop k ps) ip.
Proof.
  revert k. induction fuel as [|fuel IH]; intros k Hk Hfuel; [lia|].
  destruct (lookup_lt_is_Some_2 ps k Hk) as [p Hp].
  rewrite (drop_S _ _ _ Hp). rewrite length_flat in *.
  destruct (decide (S k < length ps)%nat) as [Hk'|Hk'].
  - destruct (lookup_lt_is_Some_2 ps (S k) Hk') as [q Hq].
    rewrite (drop_S _ _ _ Hq). simpl line_of_pairs. simpl line_loop.
    replace (2 * Z.of_nat k <? _) with true by (symmetry; apply Z.ltb_lt; lia).
    rewrite at_flat_fst, Hp. simpl.
    replace (2 * Z.of_nat k + 2) with (2 * Z.of_nat (S k)) by lia.
    rewrite at_flat_fst, Hq. simpl.
    rewrite at_flat_snd, Hp. simpl.
    replace (q.1 >? ip) with (ip <? q.1) by (rewrite Z.gtb_ltb; done).
    destruct ((p.1 <=? ip) && (ip <? q.1)); [done|].
    specialize (IH (S k) Hk' ltac:(lia)).
    rewrite (drop_S _ _ _ Hq) in IH. apply IH.
  - rewrite drop_ge by lia. simpl line_of_pairs. simpl line_loop.
    replace (2 * Z.of_nat k <? _) with false by (symmetry; apply Z.ltb_ge; lia).
    replace (Z.of_nat _ - 2 + 1) with (2 * Z.of_nat k + 1) by lia.
    rewrite at_flat_snd, Hp. done.
Qed.

Lemma line_pairs c ps ip :
  lines c = Some (flat ps) → ps ≠ [] →
  line c ip = to_int <$> line_of_pairs ps ip.
Proof.
  intros Hl Hne. unfold line. rewrite Hl. cbv zeta.
  destruct ps as [|p ps]; [done|].
  pose proof (line_loop_pairs (p :: ps) ip (length (flat (p :: ps))) 0) as E.
  rewrite drop_0 in E. apply E; rewrite ?length_flat; simpl; lia.
Qed.

Lemma brackets_cons p ps ip i :
  brackets (p :: ps) ip (S i) ↔ brackets ps ip i.
Proof. unfold brackets. simpl. done. Qed.

Lemma brackets_head p q ps ip :
  brackets (p :: q :: ps) ip 0 ↔ p.1 <= ip < q.1.
Proof.
  unfold brackets. simpl. split.
  - intros (p' & q' & [= <-] & [= <-] & Hb). done.
  - intros Hb. exists p, q. done.
Qed.

(** The first bracketing pair decides the line. *)
Lemma line_of_pairs_first ps ip i p :
  brackets ps ip i → (∀ j, (j < i)%nat → ¬ brackets ps ip j) →
  ps !! i = Some p → line_of_pairs ps ip = Some p.2.
Proof.
  revert i. induction ps as [|p0 ps IH]; intros i Hb Hfirst Hp; [done|].
  destruct ps as [|q ps].
  { destruct Hb as (? & ? & _ & Hq & _). destruct i; done. }
  cbn [line_of_pairs]. destruct i as [|i].
  - apply brackets_head in Hb. simpl in Hp. injection Hp as <-.
    replace ((p0.1 <=? ip) && (ip <? q.1)) with true; [done|].
    symmetry. apply andb_true_iff. split; [apply Z.leb_le | apply Z.ltb_lt]; lia.
  - assert (¬ (p0.1 <= ip < q.1)) as Hn.
    { intros Hh. apply (Hfirst O); [lia|]. by apply brackets_head. }
    replace ((p0.1 <=? ip) && (ip <? q.1)) with false.
    2:{ symmetry. apply andb_false_iff.
        rewrite Z.leb_gt, Z.ltb_ge. lia. }
    apply (IH i).
    + by apply brackets_cons in Hb.
    + intros j Hj Hbj. apply (Hfirst (S j)); [lia|]. by apply brackets_cons.
    + done.
Qed.

(** Without a bracketing pair the last line is returned. *)
Lemma line_of_pairs_none ps ip :
  (∀ i, ¬ brackets ps ip i) → line_of_pairs ps ip = snd <$> last ps.
Proof.
  induction ps as [|p0 ps IH]; intros Hn; [done|].
  destruct ps as [|q ps]; [done|].
  cbn [line_of_pairs]. rewrite last_cons_cons.
  replace ((p0.1 <=? ip) && (ip <? q.1)) with false.
  2:{ symmetry. apply andb_false_iff. rewrite Z.leb_gt, Z.ltb_ge.
      assert (¬ (p0.1 <= ip < q.1)) as Hh
        by (intros Hh; apply (Hn O); by apply brackets_head).
      lia. }
  apply IH. intros i Hb. apply (Hn (S i)). by apply brackets_cons.
Qed.

Lemma to_int_id z : - 2 ^ 31 <= z < 2 ^ 31 → to_int z = z.
Proof.
  intros Hz. unfold to_int. cbv zeta.
  destruct (Z.ltb_spec (z mod 2 ^ 32) (2 ^ 31)) as [Hlt|Hge].
  - destruct (Z.neg_nonneg_cases z) as [Hneg|Hpos].
    + rewrite <- (Z.mod_add z 1 (2 ^ 32)) in Hlt by lia.
      rewrite Z.mod_small in Hlt by lia. lia.
    + apply Z.mod_small. lia.
  - destruct (Z.neg_nonneg_cases z) as [Hneg|Hpos].
    + rewrite <- (Z.mod_add z 1 (2 ^ 32)) by lia.
      rewrite Z.mod_small by lia. lia.
    + rewrite Z.mod_small in Hge by lia. lia.
Qed.

(** C3. Line lookup: with an absent line table [line] answers -3; with a
    table of (ip, line) pairs it answers the line of the first pair that,
    with its successor, brackets [ip], and the last recorded line when no
    adjacent pair brackets [ip]. The value is delivered as the C [int] the
    function returns ([to_int], the identity on every line number an [int]
    holds). *)
Theorem line_lookup (c : CompiledCode) (ip : Z) :
  (lines c = None → line c ip = Some (-3)) ∧
  (∀ ps, lines c = Some (flat ps) → ps ≠ [] →
     (∀ i p, brackets ps ip i →
             (∀ j, (j < i)%nat → ¬ brackets ps ip j) →
             ps !! i = Some p → line c ip = Some (to_int p.2)) ∧
     ((∀ i, ¬ brackets ps ip i) →
      ∃ p, last ps = Some p ∧ line c ip = Some (to_int p.2))).
Proof.
  split.
  - intros Hl. unfold line. by rewrite Hl.
  - intros ps Hl Hne. rewrite (line_pairs c ps ip Hl Hne). split.
    + intros i p Hb Hfirst Hp.
      by rewrite (line_of_pairs_first ps ip i p Hb Hfirst Hp).
    + intros Hn. rewrite (line_of_pairs_none ps ip Hn).
      destruct (last ps) as [p|] eqn:E.
      * exists p. done.
      * apply last_None in E. done.
Qed.

Lemma ascending_no_bracket ps ip p0 :
  ascending ps → ps !! O = Some p0 → ip < p0.1 → ∀ i, ¬ brackets ps ip i.
Proof.
  intros Hasc H0 Hlt i (p & q & Hp & _ & Hb).
  pose proof (Hasc O i p0 p ltac:(lia) H0 Hp). lia.
Qed.

(** C10 (as the code has it). In a line table whose start ips are in
    ascending order, an ip below the first recorded start ip gets the last
    recorded line of the table, the answer given to every ip no pair
    brackets. *)
Theorem line_before_first (c : CompiledCode) (ps : list (Z * Z)) (ip : Z)
    (p0 : Z * Z) :
  lines c = Some (flat ps) → ascending ps → ps !! O = Some p0 →
  ip < p0.1 →
  ∃ p, last ps = Some p ∧ line c ip = Some (to_int p.2).
Proof.
  intros Hl Hasc H0 Hlt.
  assert (ps ≠ []) as Hne by (intros ->; done).
  rewrite (line_pairs c ps ip Hl Hne).
  rewrite (line_of_pairs_none ps ip (ascending_no_bracket ps ip p0 Hasc H0 Hlt)).
  destruct (last ps) as [p|] eqn:E.
  - exists p. done.
  - apply last_None in E. done.
Qed.

(** ** Class data words *)

Lemma mask32_bit n : 0 <= n → Z.testbit mask32 n = (n <? 32).
Proof. intros. unfold mask32. apply Z.testbit_ones_nonneg; lia. Qed.

Ltac bits :=
  apply Z.bits_inj'; intros n Hn;
  repeat first [ rewrite Z.land_spec | rewrite Z.lor_spec
               | rewrite Z.shiftl_spec by lia | rewrite Z.shiftr_spec by lia
               | rewrite mask32_bit by lia ];
  destruct (Z.ltb_spec n 32);
  repeat first [ rewrite (Z.testbit_neg_r _ (n - 32)) by lia
               | rewrite mask32_bit by lia
               | rewrite Z.sub_add ];
  try (replace (n <? 32) with true by (symmetry; apply Z.ltb_lt; lia));
  try (replace (n <? 32) with false by (symmetry; apply Z.ltb_ge; lia));
  try (replace (n - 32 <? 32) with true by (symmetry; apply Z.ltb_lt; lia));
  try (replace (n - 32 <? 32) with false by (symmetry; apply Z.ltb_ge; lia));
  rewrite ?andb_false_r, ?andb_true_r, ?orb_false_r, ?orb_false_l,
    ?andb_false_l; try done.

Lemma to_u32_id z : u32 z → to_u32 z = z.
Proof.
  intros Hz. unfold to_u32, mask32. rewrite Z.land_ones by lia.
  apply Z.mod_small. exact Hz.
Qed.

Lemma to_u32_range z : u32 (to_u32 z).
Proof.
  unfold to_u32, mask32, u32. rewrite Z.land_ones by lia.
  apply Z.mod_pos_bound. lia.
Qed.

Lemma to_u32_idemp z : to_u32 (to_u32 z) = to_u32 z.
Proof. apply to_u32_id, to_u32_range. Qed.

(** Writing both halves of a class-data word gives the word of that class,
    whatever the slot held. *)
Lemma raw_installed cid sid d :
  raw (set_f_serial_id sid (set_f_class_id cid d)) = raw (class_data_of cid sid).
Proof. unfold set_f_serial_id, set_f_class_id, class_data_of, to_u32. simpl. bits. Qed.

Lemma f_class_id_of cid sid : f_class_id (class_data_of cid sid) = to_u32 cid.
Proof. unfold f_class_id, class_data_of, to_u32. simpl. bits. Qed.

Lemma f_serial_id_of cid sid : f_serial_id (class_data_of cid sid) = to_u32 sid.
Proof.
  unfold f_serial_id, class_data_of, to_u32. simpl. bits.
  replace (n + 32 - 32) with n by lia.
  replace (n <? 32) with true by (symmetry; apply Z.ltb_lt; lia).
  replace (n + 32 <? 32) with false by (symmetry; apply Z.ltb_ge; lia).
  by rewrite andb_true_r, andb_false_r, orb_false_r.
Qed.

Lemma f_class_id_raw d d' : raw d = raw d' → f_class_id d = f_class_id d'.
Proof. unfold f_class_id. by intros ->. Qed.

Lemma f_serial_id_raw d d' : raw d = raw d' → f_serial_id d = f_serial_id d'.
Proof. unfold f_serial_id. by intros ->. Qed.

(** ** The break index of a scan *)

Lemma scan_Some P a i n k :
  scan P a i n = Some k →
  (i <= k < i + n)%nat ∧ P (a k) = true ∧
  ∀ j, (i <= j < k)%nat → P (a j) = false.
Proof.
  revert i. induction n as [|n IH]; intros i; simpl; [done|].
  destruct (P (a i)) eqn:E.
  - intros [= <-]. repeat split; [lia | lia | done | intros j Hj; lia].
  - intros Hs. destruct (IH _ Hs) as (Hr & Hk & Hb).
    repeat split; [lia | lia | done |].
    intros j Hj. destruct (decide (j = i)) as [->|]; [done|]. apply Hb. lia.
Qed.

Lemma scan_None P a i n :
  scan P a i n = None ↔ ∀ j, (i <= j < i + n)%nat → P (a j) = false.
Proof.
  revert i. induction n as [|n IH]; intros i; simpl.
  - split; [intros _ j Hj; lia | done].
  - destruct (P (a i)) eqn:E.
    + split; [done|]. intros Hf. rewrite Hf in E by lia. done.
    + rewrite IH. split; intros Hf j Hj.
      * destruct (decide (j = i)) as [->|]; [done|]. apply Hf. lia.
      * apply Hf. lia.
Qed.

Lemma scan_first P a i n k :
  (i <= k < i + n)%nat → P (a k) = true →
  (∀ j, (i <= j < k)%nat → P (a j) = false) →
  scan P a i n = Some k.
Proof.
  intros Hr Hk Hb. destruct (scan P a i n) as [k'|] eqn:E.
  - destruct (scan_Some _ _ _ _ _ E) as (Hr' & Hk' & Hb').
    destruct (lt_eq_lt_dec k k') as [[Hlt | ->] | Hlt]; [| done |].
    + rewrite Hb' in Hk by lia. done.
    + rewrite Hb in Hk' by lia. done.
  - rewrite scan_None in E. rewrite E in Hk by lia. done.
Qed.

(** ** Running the state monad *)

Ltac run :=
  repeat first
    [ progress unfold bind, ret, bug, fault, load_code, modify_code,
        load_mcode, modify_mcode, load_table, store_table, logger, call,
        new_code, new_mcode, new_table, note_verifier_run
    | progress cbn beta iota zeta delta
        [codes mcodes tables verifier_runs log negb
         with_codes with_mcodes with_tables with_verifier_runs with_log
         machine_code breakpoints primitive
         set_executor set_machine_code set_breakpoints set_jit_data]
    | rewrite lookup_insert_eq
    | match goal with
      | E : ?m !! ?k = _ |- context [?m !! ?k] => rewrite E
      | E : ?x = _ |- context [negb ?x] => rewrite E
      | E : ?x = _ |- context [match ?x with _ => _ end] => rewrite E
      end ].

(** ** Duplication *)

(** C7. Duplication: [dup] allocates a new object whose slots are those of
    the original, except that its executor is the default executor and its
    machine code is absent; the original and every other object are left as
    they were. *)
Theorem dup_frame (st : VM) (self : ref) (c : CompiledCode) :
  codes st !! self = Some c →
  ∃ code st' d,
    dup self st = Ok code st' ∧
    codes st !! code = None ∧
    codes st' !! code = Some d ∧
    execute d = Some fn_default_executor ∧
    machine_code d = None ∧
    primitive d = primitive c ∧ metadata d = metadata c ∧ name d = name c ∧
    iseq d = iseq c ∧ stack_size d = stack_size c ∧
    local_count d = local_count c ∧ required_args d = required_args c ∧
    post_args d = post_args c ∧ total_args d = total_args c ∧
    splat d = splat c ∧ lines d = lines c ∧ local_names d = local_names c ∧
    file d = file c ∧ scope d = scope c ∧ literals d = literals c ∧
    breakpoints d = breakpoints c ∧ jit_data d = jit_data c ∧
    codes st' !! self = Some c ∧
    (∀ r, r ≠ code → codes st' !! r = codes st !! r) ∧
    mcodes st' = mcodes st ∧ tables st' = tables st ∧
    verifier_runs st' = verifier_runs st ∧ log st' = log st.
Proof.
  intros Hc.
  set (code := fresh (dom (codes st))).
  assert (codes st !! code = None) as Hfresh.
  { apply not_elem_of_dom. apply is_fresh. }
  assert (code ≠ self) as Hne by (intros ->; congruence).
  eexists code, _, _. split; [|split; [exact Hfresh|]].
  { unfold dup. run. reflexivity. }
  cbn [codes with_codes]. rewrite lookup_insert_eq.
  split; [reflexivity|].
  repeat (split; [reflexivity|]).
  split; [by rewrite !lookup_insert_ne|].
  split; [intros r Hr; by rewrite !lookup_insert_ne|].
  done.
Qed.

(** ** Specialization cache *)

Lemma takes_test v cid j :
  u32 cid →
  (let id := f_class_id (class_data (specializations v j)) in
   (id =? 0) || (id =? to_u32 cid)) = true ↔ takes v cid j.
Proof.
  intros Hc. cbv zeta. rewrite (to_u32_id cid Hc). unfold takes.
  rewrite orb_true_iff, !Z.eqb_eq. done.
Qed.

Lemma takes_test_false v cid j :
  u32 cid →
  (let id := f_class_id (class_data (specializations v j)) in
   (id =? 0) || (id =? to_u32 cid)) = false ↔ ¬ takes v cid j.
Proof.
  intros Hc. rewrite <- (takes_test v cid j Hc).
  destruct (_ || _); split; try done; intros Hn; by destruct Hn.
Qed.

Lemma install_at a i cid sid e rd :
  u32 cid → u32 sid →
  let s := install a i cid sid e rd i in
  f_class_id (class_data s) = cid ∧ f_serial_id (class_data s) = sid ∧
  raw (class_data s) = raw (class_data_of cid sid) ∧
  spec_execute s = e ∧ spec_jit_data s = rd.
Proof.
  intros Hc Hs. unfold install, array_set. cbv zeta.
  rewrite decide_True by done. cbn [class_data spec_execute spec_jit_data].
  pose proof (raw_installed cid sid (class_data (a i))) as Hr.
  rewrite (f_class_id_raw _ _ Hr), (f_serial_id_raw _ _ Hr).
  rewrite f_class_id_of, f_serial_id_of, !to_u32_id by done. done.
Qed.

Lemma install_other a i j cid sid e rd :
  j ≠ i → install a i cid sid e rd j = a j.
Proof. intros Hj. unfold install, array_set. by rewrite decide_False. Qed.

(** What a call of [add_specialized] on an internalized code object does. *)
Lemma add_specialized_run `{Externals} (st : VM) (self : ref)
    (c : CompiledCode) (cid sid : Z) (e : executor)
    (rd : option RuntimeDataHolder) p v :
  codes st !! self = Some c → u32 cid → u32 sid →
  machine_code c = Some p → mcodes st !! p = Some v →
     ∃ i st' v' c',
       add_specialized self cid sid e rd st = Ok tt st' ∧
       (((i < cMaxSpecializations)%nat ∧ takes v cid i ∧
         (∀ j, (j < i)%nat → ¬ takes v cid j) ∧ log st' = log st)
        ∨ ((∀ j, (j < cMaxSpecializations)%nat → ¬ takes v cid j) ∧ i = O ∧
           log st' = log st ++ [log_warn "Specialization space exceeded for "
                                         (mc_name v)])) ∧
       mcodes st' !! p = Some v' ∧
       f_class_id (class_data (specializations v' i)) = cid ∧
       f_serial_id (class_data (specializations v' i)) = sid ∧
       raw (class_data (specializations v' i)) = raw (class_data_of cid sid) ∧
       spec_execute (specializations v' i) = e ∧
       spec_jit_data (specializations v' i) = rd ∧
       (∀ j, j ≠ i → specializations v' j = specializations v j) ∧
       execute_status v' = eJIT ∧
       fallback v' = fallback v ∧ unspecialized v' = unspecialized v ∧
       codes st' !! self = Some c' ∧
       (primitive c = None → c' = set_executor (Some fn_specialized_executor) c) ∧
       (primitive c ≠ None → c' = c).
Proof.
  intros Hc Hcid Hsid Hm Hv.
  - unfold add_specialized. run.
    destruct (install_at (specializations v) O cid sid e rd Hcid Hsid)
      as (I1 & I2 & I0 & I3 & I4).
    destruct (scan _ (specializations v) 0 cMaxSpecializations) as [i|] eqn:E.
    + destruct (scan_Some _ _ _ _ _ E) as (Hr & Hi & Hb).
      apply (takes_test v cid i Hcid) in Hi.
      destruct (install_at (specializations v) i cid sid e rd Hcid Hsid)
        as (J1 & J2 & J0 & J3 & J4).
      destruct (primitive c) eqn:Hp.
      * eexists i, _, _, c. split; [run; reflexivity|].
        split. { left. split; [lia|]. split; [done|]. split; [|done].
                 intros j Hj. apply (takes_test_false v cid j Hcid), Hb. lia. }
        run. split; [reflexivity|].
        cbn [specializations set_execute_status set_specializations
             execute_status fallback unspecialized].
        repeat (split; [done|]).
        split; [intros j Hj; by apply install_other|].
        repeat (split; [done|]). done.
      * eexists i, _, _, _. split; [run; reflexivity|].
        split. { left. split; [lia|]. split; [done|]. split; [|done].
                 intros j Hj. apply (takes_test_false v cid j Hcid), Hb. lia. }
        run. split; [reflexivity|].
        cbn [specializations set_execute_status set_specializations
             execute_status fallback unspecialized].
        repeat (split; [done|]).
        split; [intros j Hj; by apply install_other|].
        split; [done|]. split; [done|]. split; [reflexivity|]. done.
    + pose proof (proj1 (scan_None _ _ _ _) E) as Hb.
      destruct (primitive c) eqn:Hp.
      * eexists O, _, _, c. split; [run; reflexivity|].
        split. { right. split; [|done].
                 intros j Hj. apply (takes_test_false v cid j Hcid), Hb. lia. }
        run. split; [reflexivity|].
        cbn [specializations set_execute_status set_specializations
             execute_status fallback unspecialized].
        repeat (split; [done|]).
        split; [intros j Hj; by apply install_other|].
        repeat (split; [done|]). done.
      * eexists O, _, _, _. split; [run; reflexivity|].
        split. { right. split; [|done].
                 intros j Hj. apply (takes_test_false v cid j Hcid), Hb. lia. }
        run. split; [reflexivity|].
        cbn [specializations set_execute_status set_specializations
             execute_status fallback unspecialized].
        repeat (split; [done|]).
        split; [intros j Hj; by apply install_other|].
        split; [done|]. split; [done|]. split; [reflexivity|]. done.
Qed.

(** C6. Placement by [add_specialized]: with no machine code the call logs
    an error and changes nothing else; otherwise the entry goes into the
    first slot whose class id is 0 or the given one, or, when none of the
    slots is such, into slot 0 with a warning; afterwards the top-level
    executor is the specialized dispatcher if the code has no primitive. *)
Theorem add_specialized_placement `{Externals} (st : VM) (self : ref)
    (c : CompiledCode) (cid sid : Z) (e : executor)
    (rd : option RuntimeDataHolder) :
  codes st !! self = Some c → u32 cid → u32 sid →
  (machine_code c = None →
     add_specialized self cid sid e rd st
     = Ok tt (with_log (log st ++ [log_error "specializing with no backend"]) st)) ∧
  (∀ p v, machine_code c = Some p → mcodes st !! p = Some v →
     ∃ i st' v' c',
       add_specialized self cid sid e rd st = Ok tt st' ∧
       (((i < cMaxSpecializations)%nat ∧ takes v cid i ∧
         (∀ j, (j < i)%nat → ¬ takes v cid j) ∧ log st' = log st)
        ∨ ((∀ j, (j < cMaxSpecializations)%nat → ¬ takes v cid j) ∧ i = O ∧
           log st' = log st ++ [log_warn "Specialization space exceeded for "
                                         (mc_name v)])) ∧
       mcodes st' !! p = Some v' ∧
       f_class_id (class_data (specializations v' i)) = cid ∧
       f_serial_id (class_data (specializations v' i)) = sid ∧
       spec_execute (specializations v' i) = e ∧
       spec_jit_data (specializations v' i) = rd ∧
       (∀ j, j ≠ i → specializations v' j = specializations v j) ∧
       codes st' !! self = Some c' ∧
       (primitive c = None → execute c' = Some fn_specialized_executor) ∧
       machine_code c' = Some p).
Proof.
  intros Hc Hcid Hsid. split.
  - intros Hm. unfold add_specialized. run. reflexivity.
  - intros p v Hm Hv.
    destruct (add_specialized_run st self c cid sid e rd p v Hc Hcid Hsid Hm Hv)
      as (i & st' & v' & c' & Hrun & Hplace & Hv' & F1 & F2 & _ & F3 & F4
          & Hoth & _ & _ & _ & Hc' & Hprim & Hnoprim).
    exists i, st', v', c'. repeat (split; [assumption|]).
    destruct (primitive c) eqn:Hp.
    + rewrite (Hnoprim ltac:(done)). done.
    + rewrite (Hprim eq_refl). done.
Qed.

(** C2. Dispatch by [specialized_executor]: once [add_specialized] has
    registered a non-null executor for (cid, s), a receiver whose class data
    is (cid, s) is passed to that executor; a receiver whose class data is
    in no slot is passed to the unspecialized executor, and to the machine
    code's fallback when the unspecialized executor is null. *)
Theorem specialized_dispatch_routing `{Externals} (st : VM) (self : ref)
    (c : CompiledCode) (p : ref) (v : MachineCode) (cls : Class) :
  codes st !! self = Some c → machine_code c = Some p →
  mcodes st !! p = Some v → (0 < cMaxSpecializations)%nat →
  (∀ cid sid f rd, u32 cid → u32 sid →
     ∃ st1, add_specialized self cid sid (Some f) rd st = Ok tt st1 ∧
            (data cls = class_data_of cid sid →
             specialized_executor self cls st1 = Ok f st1)) ∧
  ((∀ i, (i < cMaxSpecializations)%nat →
         class_data (specializations v i) ≠ data cls) →
   (∀ u, unspecialized v = Some u →
         specialized_executor self cls st = Ok u st) ∧
   (unspecialized v = None → ∀ fb, fallback v = Some fb →
         specialized_executor self cls st = Ok fb st)).
Proof.
  intros Hc Hm Hv HN. split.
  - intros cid sid f rd Hcid Hsid.
    destruct (add_specialized_run st self c cid sid (Some f) rd p v
                Hc Hcid Hsid Hm Hv)
      as (i & st1 & v' & c' & Hrun & Hplace & Hv' & F1 & F2 & F0 & F3 & F4
          & Hoth & _ & _ & _ & Hc' & Hprim & Hnoprim).
    exists st1. split; [done|]. intros Hcls.
    assert (machine_code c' = Some p) as Hm'.
    { destruct (primitive c) eqn:Hp.
      - by rewrite (Hnoprim ltac:(done)).
      - by rewrite (Hprim eq_refl). }
    assert (scan (λ s, (raw (class_data s) =? data_raw cls)
                         && non_null (spec_execute s))
                 (specializations v') 0 cMaxSpecializations = Some i) as Hscan.
    { unfold data_raw. rewrite Hcls. apply scan_first.
      - destruct Hplace as [(Hi & _) | (_ & -> & _)]; lia.
      - rewrite F0, F3, Z.eqb_refl. done.
      - intros j Hj. apply andb_false_iff. left. apply Z.eqb_neq.
        destruct Hplace as [(Hi & _ & Hfirst & _) | (_ & -> & _)]; [|lia].
        rewrite Hoth by lia. intros Hraw.
        apply (Hfirst j); [lia|]. right.
        rewrite <- (to_u32_id cid Hcid), <- (f_class_id_of cid sid).
        by apply f_class_id_raw. }
    unfold specialized_executor, dispatch_target. run.
    rewrite F3. done.
  - intros Hnone.
    assert (scan (λ s, (raw (class_data s) =? data_raw cls)
                         && non_null (spec_execute s))
                 (specializations v) 0 cMaxSpecializations = None) as Hscan.
    { apply scan_None. intros j Hj. apply andb_false_iff. left.
      apply Z.eqb_neq. intros Hraw. apply (Hnone j); [lia|].
      revert Hraw. unfold data_raw.
      destruct (class_data (specializations v j)), (data cls).
      simpl. by intros ->. }
    split.
    + intros u Hu. unfold specialized_executor, dispatch_target. run.
      unfold non_null. run. done.
    + intros Hu fb Hfb. unfold specialized_executor, dispatch_target. run.
      unfold non_null. run. done.
Qed.

(** C8 (as the code has it). [can_specialize_p] answers true exactly when
    the whole class-data word of some slot is zero, class id and serial
    together. *)
Theorem can_specialize_p_raw `{Externals} (st : VM) (self : ref)
    (c : CompiledCode) (p : ref) (v : MachineCode) :
  codes st !! self = Some c → machine_code c = Some p →
  mcodes st !! p = Some v →
  ∃ b, can_specialize_p self st = Ok b st ∧
       (b = true ↔ ∃ i, (i < cMaxSpecializations)%nat ∧
                        raw (class_data (specializations v i)) = 0).
Proof.
  intros Hc Hm Hv. unfold can_specialize_p. run.
  destruct (scan _ (specializations v) 0 cMaxSpecializations) as [i|] eqn:E.
  - exists true. split; [done|]. split; [|done]. intros _.
    destruct (scan_Some _ _ _ _ _ E) as (Hr & Hi & _).
    exists i. split; [lia|]. by apply Z.eqb_eq.
  - exists false. split; [done|]. split; [done|].
    intros (i & Hi & Hz). rewrite scan_None in E.
    specialize (E i ltac:(lia)). apply Z.eqb_neq in E. done.
Qed.

(** ** Internalization *)

Lemma keeps_refl st : keeps st st.
Proof. split; [done|]. exists []. split; [done|]. intros r Hr. by apply elem_of_nil in Hr. Qed.

Lemma keeps_trans st1 st2 st3 : keeps st1 st2 → keeps st2 st3 → keeps st1 st3.
Proof.
  intros [H1 (n1 & E1 & N1)] [H2 (n2 & E2 & N2)]. split; [by auto|].
  exists (n2 ++ n1). split; [by rewrite E2, E1, app_assoc|].
  intros r Hr p Hp. apply elem_of_app in Hr as [Hr|Hr].
  - apply (N2 r Hr p). by apply H1.
  - by apply (N1 r Hr p).
Qed.

(** A step that leaves the code heap and the verifier record alone. *)
Lemma keeps_same st st' :
  codes st' = codes st → verifier_runs st' = verifier_runs st → keeps st st'.
Proof.
  intros Hc Hv. split.
  - intros r p (c & Hr & Hp). exists c. by rewrite Hc.
  - exists []. split; [by rewrite Hv|]. intros r Hr. by apply elem_of_nil in Hr.
Qed.

Lemma keeping_ret {A} (a : A) : keeping (ret a).
Proof. intros st a' st' [= _ <-]. apply keeps_refl. Qed.

Lemma keeping_bug {A} msg : keeping (@bug A msg).
Proof. intros st a st' [=]. Qed.

Lemma keeping_fault {A} : keeping (@fault A).
Proof. intros st a st' [=]. Qed.

Lemma keeping_bind {A B} (m : M A) (k : A → M B) :
  keeping m → (∀ a, keeping (k a)) → keeping (bind m k).
Proof.
  intros Hm Hk st b st'. unfold bind.
  destruct (m st) as [a st1| |] eqn:E; [|done..].
  intros Hb. eapply keeps_trans; [by eapply Hm | by eapply Hk].
Qed.

Lemma keeping_load_code self : keeping (load_code self).
Proof.
  intros st a st'. unfold load_code. destruct (codes st !! self); [|done].
  intros [= _ <-]. apply keeps_refl.
Qed.

Lemma keeping_load_mcode v : keeping (load_mcode v).
Proof.
  intros st a st'. unfold load_mcode. destruct v as [p|]; [|done].
  destruct (mcodes st !! p); [|done]. intros [= _ <-]. apply keeps_refl.
Qed.

Lemma keeping_load_table t : keeping (load_table t).
Proof.
  intros st a st'. unfold load_table. destruct t as [r|]; [|done].
  destruct (tables st !! r); [|done]. intros [= _ <-]. apply keeps_refl.
Qed.

Lemma keeping_store_table t tb : keeping (store_table t tb).
Proof.
  intros st a st'. unfold store_table. destruct t as [r|]; [|done].
  intros [= _ <-]. by apply keeps_same.
Qed.

Lemma keeping_modify_mcode v f : keeping (modify_mcode v f).
Proof.
  apply keeping_bind; [apply keeping_load_mcode|]. intros m st a st'.
  destruct v as [p|]; [|done]. intros [= _ <-]. by apply keeps_same.
Qed.

Lemma keeping_logger e : keeping (logger e).
Proof. intros st a st' [= _ <-]. by apply keeps_same. Qed.

Lemma keeping_call target : keeping (call target).
Proof. destruct target; [apply keeping_ret | apply keeping_fault]. Qed.

Lemma keeping_new_mcode m : keeping (new_mcode m).
Proof. intros st a st' [= _ <-]. by apply keeps_same. Qed.

Lemma keeping_new_table : keeping new_table.
Proof. intros st a st' [= _ <-]. by apply keeps_same. Qed.

(** A slot update that does not touch a machine code already there. *)
Lemma keeping_modify_code self f :
  (∀ c p, machine_code c = Some p → machine_code (f c) = Some p) →
  keeping (modify_code self f).
Proof.
  intros Hf st a st'. unfold modify_code, bind, load_code.
  destruct (codes st !! self) as [c|] eqn:Hc; [|done]. intros [= _ <-]. split.
  - intros r p (c0 & Hr & Hp). unfold internalized. cbn [codes with_codes].
    destruct (decide (r = self)) as [->|Hne].
    + rewrite lookup_insert_eq. exists (f c). split; [done|].
      apply Hf. congruence.
    + exists c0. by rewrite lookup_insert_ne.
  - exists []. split; [done|]. intros r Hr. by apply elem_of_nil in Hr.
Qed.

Lemma internalize_present `{Externals} st self c p :
  codes st !! self = Some c → machine_code c = Some p →
  internalize self st = Ok (Some p) st.
Proof. intros Hc Hm. unfold internalize. run. done. Qed.

(** The first internalization of a code object, whatever the verifier
    makes of its bytecode. *)
Lemma internalize_always `{Externals} st self c :
  codes st !! self = Some c → machine_code c = None →
  ∃ p st1 c1 m1,
    internalize self st = Ok (Some p) st1 ∧
    mcodes st !! p = None ∧
    codes st1 = <[self := c1]> (codes st) ∧
    machine_code c1 = Some p ∧ execute c1 = fallback m1 ∧
    breakpoints c1 = breakpoints c ∧ primitive c1 = primitive c ∧
    mcodes st1 = <[p := m1]> (mcodes st) ∧
    tables st1 = tables st ∧ log st1 = log st ∧
    verifier_runs st1 = self :: verifier_runs st.
Proof.
  intros Hc Hm.
  set (p := fresh (dom (mcodes st))).
  assert (mcodes st !! p = None) as Hfresh
    by (apply not_elem_of_dom, is_fresh).
  unfold internalize. run.
  destruct (resolve_primitive c) as [prim|] eqn:Hr; run.
  - eexists p, _, _, _. split; [reflexivity|]. split; [done|].
    cbn [codes mcodes tables log verifier_runs with_codes with_mcodes].
    rewrite !insert_insert_eq.
    split; [reflexivity|]. done.
  - eexists p, _, _, _. split; [reflexivity|]. split; [done|].
    cbn [codes mcodes tables log verifier_runs with_codes with_mcodes].
    rewrite !insert_insert_eq.
    split; [reflexivity|]. done.
Qed.

(** The first internalization of a code object whose bytecode verifies. *)
Lemma internalize_first `{Externals} st self c :
  codes st !! self = Some c → machine_code c = None → verify c = true →
  ∃ p st1 c1 m1,
    internalize self st = Ok (Some p) st1 ∧
    mcodes st !! p = None ∧
    codes st1 = <[self := c1]> (codes st) ∧
    machine_code c1 = Some p ∧ execute c1 = fallback m1 ∧
    breakpoints c1 = breakpoints c ∧ primitive c1 = primitive c ∧
    mcodes st1 = <[p := m1]> (mcodes st) ∧
    tables st1 = tables st ∧ log st1 = log st ∧
    verifier_runs st1 = self :: verifier_runs st.
Proof. intros Hc Hm _. by apply internalize_always. Qed.

Lemma keeping_internalize `{Externals} self : keeping (internalize self).
Proof.
  intros st r st' Hrun.
  destruct (codes st !! self) as [c|] eqn:Hc.
  2:{ unfold internalize in Hrun. revert Hrun. run. done. }
  destruct (machine_code c) as [p|] eqn:Hm.
  { rewrite (internalize_present st self c p Hc Hm) in Hrun.
    injection Hrun as _ <-. apply keeps_refl. }
  assert (∀ q, ¬ internalized st self q) as Hnot.
  { intros q (c0 & Hc0 & Hq). congruence. }
  destruct (internalize_always st self c Hc Hm)
    as (p & st1 & c1 & m1 & E & _ & Hcodes & Hm1 & _ & _ & _ & _ & _ & _ & Hruns).
  rewrite E in Hrun. injection Hrun as _ <-. split.
  - intros r0 q (c0 & Hr0 & Hq). unfold internalized. rewrite Hcodes.
    destruct (decide (r0 = self)) as [->|Hne].
    + exfalso. apply (Hnot q). by exists c0.
    + exists c0. by rewrite lookup_insert_ne.
  - exists [self]. split; [done|]. intros r0 Hr0 q.
    apply list_elem_of_singleton in Hr0 as ->. apply Hnot.
Qed.

Ltac keep :=
  repeat first
    [ apply keeping_ret | apply keeping_bug | apply keeping_fault
    | apply keeping_load_code | apply keeping_load_mcode
    | apply keeping_modify_mcode | apply keeping_load_table
    | apply keeping_store_table | apply keeping_logger | apply keeping_call
    | apply keeping_new_mcode | apply keeping_new_table
    | apply keeping_internalize
    | apply keeping_modify_code; intros ? ? ?; assumption
    | apply keeping_bind; [|intros ?]
    | progress cbv zeta
    | match goal with
      | |- keeping (match ?x with _ => _ end) => destruct x
      end ].

Lemma keeping_dup self : keeping (dup self).
Proof.
  intros st r st'. unfold dup. run.
  destruct (codes st !! self) as [c|] eqn:Hc; [|done]. run.
  intros [= _ <-].
  assert (codes st !! fresh (dom (codes st)) = None) as Hfresh
    by (apply not_elem_of_dom, is_fresh).
  split.
  - intros r0 q (c0 & Hr0 & Hq). exists c0. cbn [codes with_codes].
    rewrite !lookup_insert_ne by congruence. done.
  - exists []. split; [done|]. intros r0 Hr0. by apply elem_of_nil in Hr0.
Qed.

Lemma keeping_perform `{Externals} a : keeping (perform a).
Proof.
  destruct a; unfold perform;
    try (apply keeping_bind; [|intros ?; apply keeping_ret]).
  - apply keeping_dup.
  - apply keeping_internalize.
  - unfold call_sites. keep.
  - unfold constant_caches. keep.
  - unfold default_executor. keep.
  - unfold specialized_executor. keep.
  - unfold primitive_failed. keep.
  - unfold can_specialize_p. keep.
  - unfold set_unspecialized. keep.
  - unfold add_specialized. keep.
  - unfold find_specialized. keep.
  - unfold set_breakpoint. keep.
  - unfold clear_breakpoint. keep.
  - unfold is_breakpoint. keep.
Qed.

Lemma keeping_perform_all `{Externals} l : keeping (perform_all l).
Proof.
  induction l as [|a l IH]; simpl.
  - apply keeping_ret.
  - apply keeping_bind; [apply keeping_perform | intros _; apply IH].
Qed.

(** C1. Internalization happens once: after the first successful
    [internalize] of a code object whose bytecode verifies, whatever calls
    are made afterwards on whatever objects, [internalize] answers the same
    [MachineCode] without changing anything, and the verifier has not been
    run on that object again. *)
Theorem internalize_once `{Externals} (st : VM) (self : ref) (c : CompiledCode) :
  codes st !! self = Some c → machine_code c = None → verify c = true →
  ∃ p st1,
    internalize self st = Ok (Some p) st1 ∧
    verifier_runs st1 = self :: verifier_runs st ∧
    internalized st1 self p ∧
    ∀ calls st2, perform_all calls st1 = Ok tt st2 →
      internalize self st2 = Ok (Some p) st2 ∧
      ∃ new, verifier_runs st2 = new ++ self :: verifier_runs st ∧
             self ∉ new.
Proof.
  intros Hc Hm Hv.
  destruct (internalize_first st self c Hc Hm Hv)
    as (p & st1 & c1 & m1 & E & _ & Hcodes & Hm1 & _ & _ & _ & _ & _ & _ & Hruns).
  assert (internalized st1 self p) as Hint.
  { exists c1. rewrite Hcodes, lookup_insert_eq. done. }
  exists p, st1. repeat (split; [done|]).
  intros calls st2 Hcalls.
  destruct (keeping_perform_all calls st1 tt st2 Hcalls)
    as [Hkeep (new & Hnew & Hfresh)].
  destruct (Hkeep self p Hint) as (c2 & Hc2 & Hm2).
  split; [by apply (internalize_present st2 self c2 p)|].
  exists new. split; [by rewrite Hnew, Hruns|].
  intros Hin. by apply (Hfresh self Hin p).
Qed.

(** ** Breakpoints *)

Lemma is_breakpoint_run `{Externals} st self c p v t tb ip :
  codes st !! self = Some c → machine_code c = Some p →
  mcodes st !! p = Some v → validate_ip (opcodes v) (to_int ip) = true →
  breakpoints c = Some t → tables st !! t = Some tb →
  is_breakpoint self ip st = Ok (RBOOL (bool_decide (is_Some (tb !! ip)))) st.
Proof. intros Hc Hm Hv Hip Hb Ht. unfold is_breakpoint. run. done. Qed.

Lemma is_breakpoint_no_table `{Externals} st self c p v ip :
  codes st !! self = Some c → machine_code c = Some p →
  mcodes st !! p = Some v → validate_ip (opcodes v) (to_int ip) = true →
  breakpoints c = None →
  is_breakpoint self ip st = Ok cFalse st.
Proof. intros Hc Hm Hv Hip Hb. unfold is_breakpoint. run. done. Qed.

(** [set_breakpoint] on an internalized code object at a valid ip. *)
Lemma set_breakpoint_run `{Externals} st self c p v ip x :
  codes st !! self = Some c → machine_code c = Some p →
  mcodes st !! p = Some v → validate_ip (opcodes v) (to_int ip) = true →
  (∀ t, breakpoints c = Some t → is_Some (tables st !! t)) →
  ∃ st1 c1 t tb0,
    set_breakpoint self ip x st = Ok (Fixnum ip) st1 ∧
    codes st1 !! self = Some c1 ∧ machine_code c1 = Some p ∧
    breakpoints c1 = Some t ∧
    tables st1 !! t = Some (<[ip := x]> tb0) ∧
    mcodes st1 !! p = Some (set_run debugger_interpreter (set_debugging 1 v)).
Proof.
  intros Hc Hm Hv Hip Hwf. unfold set_breakpoint. run.
  destruct (breakpoints c) as [t|] eqn:Hb.
  - destruct (Hwf t eq_refl) as [tb Ht]. run.
    eexists _, c, t, tb. split; [reflexivity|]. run.
    rewrite ?lookup_insert_eq. done.
  - run. cbn [breakpoints set_breakpoints]. run.
    eexists _, _, _, ∅. split; [reflexivity|]. run.
    rewrite ?lookup_insert_eq. done.
Qed.

(** [clear_breakpoint] on an internalized code object at a valid ip. *)
Lemma clear_breakpoint_run `{Externals} st self c p v t tb ip :
  codes st !! self = Some c → machine_code c = Some p →
  mcodes st !! p = Some v → validate_ip (opcodes v) (to_int ip) = true →
  breakpoints c = Some t → tables st !! t = Some tb →
  ∃ st2 v2,
    clear_breakpoint self ip st
    = Ok (RBOOL (bool_decide (is_Some (tb !! ip)))) st2 ∧
    codes st2 = codes st ∧
    tables st2 !! t = Some (delete ip tb) ∧
    mcodes st2 !! p = Some v2 ∧ opcodes v2 = opcodes v ∧
    (size (delete ip tb) = O → debugging v2 = 0 ∧ run v2 = interpreter) ∧
    (size (delete ip tb) ≠ O → v2 = v).
Proof.
  intros Hc Hm Hv Hip Hb Ht. unfold clear_breakpoint. run.
  destruct (Z.of_nat (size (delete ip tb)) =? 0) eqn:Hsz.
  - apply Z.eqb_eq in Hsz. run.
    eexists _, _. split; [reflexivity|]. run.
    rewrite ?lookup_insert_eq.
    split_and!; try done. intros; exfalso; lia.
  - apply Z.eqb_neq in Hsz. run.
    eexists _, v. split; [reflexivity|]. run.
    split_and!; try done. intros; exfalso; lia.
Qed.

Lemma clear_breakpoint_no_table `{Externals} st self c p v ip :
  codes st !! self = Some c → machine_code c = Some p →
  mcodes st !! p = Some v → validate_ip (opcodes v) (to_int ip) = true →
  breakpoints c = None →
  clear_breakpoint self ip st = Ok cFalse st.
Proof. intros Hc Hm Hv Hip Hb. unfold clear_breakpoint. run. done. Qed.

(** C4. Breakpoint life cycle on an internalized code object, at a valid
    instruction boundary: after [set_breakpoint] the breakpoint is reported,
    the debugging flag is set and the debugging interpreter runs the code;
    after [clear_breakpoint] it is no longer reported; and if it was the
    only breakpoint, the flag is cleared and the normal interpreter is
    back. *)
Theorem breakpoint_lifecycle `{Externals} (st : VM) (self : ref)
    (c : CompiledCode) (p : ref) (v : MachineCode) (ip : Z) (x : Object) :
  codes st !! self = Some c → machine_code c = Some p →
  mcodes st !! p = Some v → validate_ip (opcodes v) (to_int ip) = true →
  (∀ t, breakpoints c = Some t → is_Some (tables st !! t)) →
  ∃ st1 v1,
    set_breakpoint self ip x st = Ok (Fixnum ip) st1 ∧
    is_breakpoint self ip st1 = Ok cTrue st1 ∧
    mcodes st1 !! p = Some v1 ∧
    debugging v1 = 1 ∧ run v1 = debugger_interpreter ∧
    ∃ st2 v2,
      clear_breakpoint self ip st1 = Ok cTrue st2 ∧
      is_breakpoint self ip st2 = Ok cFalse st2 ∧
      mcodes st2 !! p = Some v2 ∧
      (breakpoint_count st1 self = Some 1%nat →
       debugging v2 = 0 ∧ run v2 = interpreter).
Proof.
  intros Hc Hm Hv Hip Hwf.
  destruct (set_breakpoint_run st self c p v ip x Hc Hm Hv Hip Hwf)
    as (st1 & c1 & t & tb0 & Hset & Hc1 & Hm1 & Hb1 & Ht1 & Hv1).
  exists st1, (set_run debugger_interpreter (set_debugging 1 v)).
  split; [done|].
  assert (is_Some (<[ip := x]> tb0 !! ip)) as Hin
    by (rewrite lookup_insert_eq; eauto).
  split.
  { rewrite (is_breakpoint_run st1 self c1 p _ t _ ip Hc1 Hm1 Hv1 Hip Hb1 Ht1).
    by rewrite bool_decide_eq_true_2. }
  repeat (split; [done|]).
  destruct (clear_breakpoint_run st1 self c1 p _ t _ ip Hc1 Hm1 Hv1 Hip Hb1 Ht1)
    as (st2 & v2 & Hclr & Hcodes & Ht2 & Hv2 & Hops & Hlast & _).
  exists st2, v2. split.
  { rewrite Hclr. by rewrite bool_decide_eq_true_2. }
  split.
  { rewrite <- Hcodes in Hc1.
    assert (validate_ip (opcodes v2) (to_int ip) = true) as Hip2
      by (rewrite Hops; exact Hip).
    rewrite (is_breakpoint_run st2 self c1 p v2 t _ ip Hc1 Hm1 Hv2 Hip2 Hb1 Ht2).
    rewrite bool_decide_eq_false_2; [done|].
    rewrite lookup_delete_eq. by intros [? ?]. }
  split; [done|].
  intros Hcount. apply Hlast.
  unfold breakpoint_count in Hcount. rewrite Hc1 in Hcount. simpl in Hcount.
  rewrite Hb1 in Hcount. simpl in Hcount. rewrite Ht1 in Hcount.
  simpl in Hcount. injection Hcount as Hcount.
  rewrite map_size_delete_Some by done. by rewrite Hcount.
Qed.

(** ** Breakpoint queries before internalization *)

(** C5 (as the code has it). On a code object without machine code, such
    as one whose bytecode the verifier rejects and on which no internalizing
    call has been made, [clear_breakpoint] and [is_breakpoint] do not
    internalize: they answer the ip they were given and false, not the
    failure sentinel, and change nothing. *)
Theorem breakpoint_queries_without_machine_code `{Externals} (st : VM)
    (self : ref) (c : CompiledCode) (ip : Z) :
  codes st !! self = Some c → machine_code c = None →
  clear_breakpoint self ip st = Ok (Fixnum ip) st ∧
  is_breakpoint self ip st = Ok cFalse st.
Proof.
  intros Hc Hm. split.
  - unfold clear_breakpoint. run. done.
  - unfold is_breakpoint. run. done.
Qed.

(** ** Concrete runs *)

(** C5, counterexample. With the bytecode rejected, [is_breakpoint] and
    [clear_breakpoint] do not answer the failure sentinel. *)
Lemma failure_sentinel_not_uniform :
  @verify demo demo_bad = false ∧
  codes (demo_vm demo_bad) !! 1%positive = Some demo_bad ∧
  @is_breakpoint demo 1%positive 4 (demo_vm demo_bad)
    = Ok cFalse (demo_vm demo_bad) ∧
  @clear_breakpoint demo 1%positive 4 (demo_vm demo_bad)
    = Ok (Fixnum 4) (demo_vm demo_bad) ∧
  cFalse ≠ Primitives_failure ∧ Fixnum 4 ≠ Primitives_failure.
Proof. split_and!; try done; vm_compute; reflexivity. Qed.

(** C10, counterexample. In the table (5, 1) (3, 2) (20, 3) the ip 4 lies
    below the first start ip, yet the second and third pair bracket it and
    [line] answers 2, not the last line 3. *)
Lemma line_before_first_unordered :
  lines demo_unordered = Some (flat [(5, 1); (3, 2); (20, 3)]) ∧
  4 < 5 ∧
  last [(5, 1); (3, 2); (20, 3)] = Some (20, 3) ∧
  line demo_unordered 4 = Some 2 ∧
  line demo_unordered 4 ≠ Some 3.
Proof. split_and!; try done; vm_compute; congruence. Qed.

(** C8, counterexample. After seven classes and then class id 0 with serial
    5 have been registered, the last slot has class id zero, yet
    [can_specialize_p] answers false. *)
Lemma can_specialize_p_class_id_zero :
  (v ← mcodes demo_filled !! 1%positive;
   Some (f_class_id (class_data (specializations v 7%nat)),
         f_serial_id (class_data (specializations v 7%nat)))) = Some (0, 5) ∧
  @can_specialize_p demo 1%positive demo_filled = Ok false demo_filled.
Proof. split; vm_compute; reflexivity. Qed.

(** ** Method tables *)

Module MethodTableFacts.
Import MethodTable.

Lemma concat_insert_swap {A} (vals : list (list A)) i c c' :
  vals !! i = Some c →
  c ++ concat (<[i := c']> vals) ≡ₚ c' ++ concat vals.
Proof.
  revert i. induction vals as [|x vals IH]; intros [|i] Hi; simplify_eq/=.
  - by rewrite !app_assoc, (Permutation_app_comm c c').
  - rewrite !app_assoc, (Permutation_app_comm c x), (Permutation_app_comm c' x).
    rewrite <- !app_assoc. by rewrite (IH i Hi).
Qed.

Lemma concat_insert_cons {A} (vals : list (list A)) i c (b : A) :
  vals !! i = Some c →
  concat (<[i := b :: c]> vals) ≡ₚ b :: concat vals.
Proof.
  intros Hi. apply (Permutation_app_inv_l c).
  rewrite (concat_insert_swap vals i c (b :: c) Hi). simpl.
  by rewrite Permutation_middle.
Qed.

Lemma NoDup_name_inj (l : list Bucket) b b' :
  NoDup (name <$> l) → b ∈ l → b' ∈ l → name b = name b' → b = b'.
Proof.
  induction l as [|x l IH]; intros Hnd Hb Hb' Hn; [by apply elem_of_nil in Hb|].
  rewrite fmap_cons in Hnd. apply NoDup_cons in Hnd as [Hx Hnd].
  apply elem_of_cons in Hb as [->|Hb]; apply elem_of_cons in Hb' as [->|Hb'].
  - done.
  - exfalso. apply Hx. rewrite Hn. by apply list_elem_of_fmap_2.
  - exfalso. apply Hx. rewrite <- Hn. by apply list_elem_of_fmap_2.
  - by apply IH.
Qed.

Lemma find_in_chain_Some n chain b :
  find_in_chain n chain = Some b → b ∈ chain ∧ name b = n.
Proof.
  induction chain as [|x chain IH]; simpl; [done|].
  case_decide.
  - intros [= <-]. split; [left | done].
  - intros Hf. destruct (IH Hf). split; [by right | done].
Qed.

Lemma find_in_chain_None n chain :
  find_in_chain n chain = None ↔ n ∉ name <$> chain.
Proof.
  induction chain as [|x chain IH]; simpl.
  - split; [intros _ Hin; by apply elem_of_nil in Hin | done].
  - rewrite not_elem_of_cons. case_decide.
    + split; [done | intros [? _]; congruence].
    + rewrite IH. split; [intros ?; split; [congruence|done] | by intros [_ ?]].
Qed.

Section Facts.
Context `{Interner}.

Lemma find_bin_lt h b : (0 < b)%nat → (find_bin h b < b)%nat.
Proof. intros Hb. unfold find_bin. pose proof (Nat.land_le_r h (b - 1)). lia. Qed.

Lemma elem_of_buckets t b :
  b ∈ buckets t ↔ ∃ i chain, values t !! i = Some chain ∧ b ∈ chain.
Proof.
  unfold buckets. rewrite list_elem_of_In, in_concat. split.
  - intros (chain & Hc & Hb). apply list_elem_of_In in Hc, Hb.
    apply list_elem_of_lookup in Hc as [i Hi]. by exists i, chain.
  - intros (i & chain & Hi & Hb). exists chain.
    rewrite <- !list_elem_of_In. split; [|done].
    by eapply list_elem_of_lookup_2.
Qed.

Lemma wf_chain t n :
  wf t → ∃ chain, values t !! bin_of t n = Some chain.
Proof.
  intros Hwf. apply lookup_lt_is_Some_2. rewrite (wf_length t Hwf).
  apply find_bin_lt, (wf_bins t Hwf).
Qed.

(** In a well-formed table, [lookup] finds exactly the bucket of that
    name. *)
Lemma lookup_Some t n b :
  wf t → lookup t n = Some b ↔ b ∈ buckets t ∧ name b = n.
Proof.
  intros Hwf. destruct (wf_chain t n Hwf) as [chain Hc].
  unfold lookup. rewrite Hc. simpl. split.
  - intros Hf. apply find_in_chain_Some in Hf as [Hb Hn].
    split; [|done]. apply elem_of_buckets. by exists (bin_of t n), chain.
  - intros [Hb Hn]. apply elem_of_buckets in Hb as (i & chain' & Hi & Hb).
    pose proof (wf_bin t Hwf i chain' b Hi Hb) as Hbin.
    rewrite Hn in Hbin. subst i. simplify_eq.
    destruct (find_in_chain (name b) chain) as [b'|] eqn:Hf.
    + apply find_in_chain_Some in Hf as [Hb' Hn']. f_equal.
      apply (NoDup_name_inj (buckets t)); [apply (wf_names t Hwf)| | |done].
      * apply elem_of_buckets. by exists (bin_of t (name b)), chain.
      * apply elem_of_buckets. by exists (bin_of t (name b)), chain.
    + apply find_in_chain_None in Hf. exfalso. apply Hf.
      by apply list_elem_of_fmap_2.
Qed.

Lemma lookup_None t n :
  wf t → lookup t n = None ↔ n ∉ name <$> buckets t.
Proof.
  intros Hwf. split.
  - intros Hl Hin. apply list_elem_of_fmap in Hin as (b & -> & Hb).
    assert (lookup t (name b) = Some b) as Hs by by apply lookup_Some.
    congruence.
  - intros Hn. destruct (lookup t n) as [b|] eqn:Hl; [|done].
    apply lookup_Some in Hl as [Hb <-]; [|done].
    exfalso. apply Hn. by apply list_elem_of_fmap_2.
Qed.


Lemma overwrite_Some b chain chain' :
  overwrite b chain = Some chain' →
  name <$> chain' = name <$> chain ∧ b ∈ chain' ∧
  (∀ x, x ∈ chain' → x = b ∨ x ∈ chain) ∧
  name b ∈ name <$> chain.
Proof.
  revert chain'. induction chain as [|x chain IH]; intros chain'; simpl; [done|].
  case_decide as Hx.
  - intros [= <-]. rewrite !fmap_cons, Hx. split_and!; [done | left | | left].
    intros y Hy. apply elem_of_cons in Hy as [->|Hy]; [by left|].
    right. by right.
  - destruct (overwrite b chain) as [rest|] eqn:E; [|done].
    intros [= <-]. destruct (IH rest eq_refl) as (Hn & Hb & Hsub & Hin).
    rewrite !fmap_cons, Hn. split_and!; [done | by right | | by right].
    intros y Hy. apply elem_of_cons in Hy as [->|Hy]; [right; left|].
    destruct (Hsub y Hy); [by left | right; by right].
Qed.

Lemma overwrite_None b chain :
  overwrite b chain = None → name b ∉ name <$> chain.
Proof.
  induction chain as [|x chain IH]; simpl.
  - intros _ Hin. by apply elem_of_nil in Hin.
  - case_decide as Hx; [done|].
    destruct (overwrite b chain); [done|]. intros _.
    apply not_elem_of_cons. split; [congruence | by apply IH].
Qed.

Lemma unlink_Some n chain b rest :
  unlink n chain = Some (b, rest) →
  chain ≡ₚ b :: rest ∧ name b = n.
Proof.
  revert rest. induction chain as [|x chain IH]; intros rest; simpl; [done|].
  case_decide as Hx.
  - by intros [= <- <-].
  - destruct (unlink n chain) as [[b' rest']|] eqn:E; [|done].
    simpl. intros [= <- <-]. destruct (IH rest' eq_refl) as [Hp Hn].
    split; [|done]. rewrite Hp. apply perm_swap.
Qed.

Lemma unlink_None n chain :
  unlink n chain = None → find_in_chain n chain = None.
Proof.
  induction chain as [|x chain IH]; simpl; [done|].
  case_decide; [done|].
  destruct (unlink n chain) as [[b' rest']|]; [done|]. by intros _; apply IH.
Qed.

Lemma concat_replicate_nil {A} n : concat (replicate n (@nil A)) = [].
Proof. induction n; simpl; done. Qed.

Lemma concat_alter_cons {A} (vals : list (list A)) i (b : A) :
  (i < length vals)%nat →
  concat (alter (b ::.) i vals) ≡ₚ b :: concat vals.
Proof.
  revert i. induction vals as [|x vals IH]; intros [|i] Hi; simpl in *;
    try lia; [done|].
  rewrite (IH i) by lia. by rewrite Permutation_middle.
Qed.

(** Rehashing puts every bucket into the bin of its name and loses
    none. *)
Lemma rehash_spec size (l : list Bucket) vals :
  (0 < size)%nat → length vals = size →
  let vals' :=
    foldl (λ vals b,
             alter (b ::.) (find_bin (symbol_hash (name b)) size) vals)
          vals l in
  length vals' = size ∧ concat vals' ≡ₚ l ++ concat vals ∧
  ((∀ i chain b, vals !! i = Some chain → b ∈ chain →
                 find_bin (symbol_hash (name b)) size = i) →
   ∀ i chain b, vals' !! i = Some chain → b ∈ chain →
                find_bin (symbol_hash (name b)) size = i).
Proof.
  intros Hsize. revert vals.
  induction l as [|b l IH]; intros vals Hlen; simpl; [done|].
  set (j := find_bin (symbol_hash (name b)) size).
  assert (j < size)%nat as Hj by by apply find_bin_lt.
  destruct (IH (alter (b ::.) j vals)) as (Hl & Hp & Hb).
  { by rewrite length_alter. }
  split; [done|]. split.
  - rewrite Hp, concat_alter_cons by lia. by rewrite Permutation_middle.
  - intros Hbin. apply Hb. intros i chain x Hi Hx.
    destruct (decide (i = j)) as [->|Hne].
    + rewrite list_lookup_alter_eq in Hi.
      destruct (vals !! j) as [c|] eqn:Hc; simplify_eq/=.
      apply elem_of_cons in Hx as [->|Hx]; [done|]. by eapply Hbin.
    + rewrite list_lookup_alter_ne in Hi by done. by eapply Hbin.
Qed.

Lemma redistribute_buckets t size :
  (0 < size)%nat → buckets (redistribute t size) ≡ₚ buckets t.
Proof.
  intros Hsize.
  destruct (rehash_spec size (concat (values t)) (replicate size []) Hsize)
    as (_ & Hp & _); [by rewrite length_replicate|].
  unfold buckets, redistribute. simpl. rewrite Hp.
  by rewrite concat_replicate_nil, app_nil_r.
Qed.

Lemma wf_redistribute t size :
  (0 < size)%nat → NoDup (name <$> buckets t) →
  entries t = length (buckets t) → wf (redistribute t size).
Proof.
  intros Hsize Hnd Hent.
  destruct (rehash_spec size (concat (values t)) (replicate size []) Hsize)
    as (Hl & _ & Hb); [by rewrite length_replicate|].
  pose proof (redistribute_buckets t size Hsize) as Hp.
  split.
  - done.
  - done.
  - apply Hb. intros i chain b Hi Hin.
    apply lookup_replicate in Hi as [-> _]. by apply elem_of_nil in Hin.
  - by rewrite Hp.
  - simpl. rewrite Hent. by rewrite Hp.
Qed.

Lemma round_up_ge fuel p size : (p <= round_up fuel p size)%nat.
Proof.
  revert p. induction fuel as [|fuel IH]; intros p; cbn [round_up]; [done|].
  destruct (size <=? p)%nat; [done|]. specialize (IH (2 * p)%nat). lia.
Qed.

Lemma wf_create size : wf (create size).
Proof.
  unfold create. cbv zeta.
  set (b := round_up _ _ _).
  assert (16 <= b)%nat as Hb by apply round_up_ge.
  split; simpl.
  - by rewrite length_replicate.
  - lia.
  - intros i chain x Hi Hin.
    apply lookup_replicate in Hi as [-> _]. by apply elem_of_nil in Hin.
  - unfold buckets. simpl. rewrite concat_replicate_nil. constructor.
  - unfold buckets. simpl. by rewrite concat_replicate_nil.
Qed.

Lemma buckets_create size : buckets (create size) = [].
Proof. unfold buckets, create. simpl. apply concat_replicate_nil. Qed.


Lemma wf_bin_insert t i chain chain' :
  wf t → values t !! i = Some chain →
  (∀ x, x ∈ chain' → bin_of t (name x) = i) →
  ∀ j c x, <[i := chain']> (values t) !! j = Some c → x ∈ c →
           bin_of t (name x) = j.
Proof.
  intros Hwf Hi Hnew j c x Hj Hx.
  destruct (decide (j = i)) as [->|Hne].
  - rewrite list_lookup_insert_eq in Hj by by eapply lookup_lt_Some.
    injection Hj as <-. by apply Hnew.
  - rewrite list_lookup_insert_ne in Hj by done.
    by apply (wf_bin t Hwf j c x).
Qed.

(** What [store] does to a well-formed table. *)
Lemma store_spec t n mid m sc ser vis :
  wf t →
  let b := {| name := n; visibility := vis; method_id := mid;
              method := m; scope := sc; serial := ser |} in
  let t' := store t n mid m sc ser vis in
  wf t' ∧ b ∈ buckets t' ∧
  (∀ x, x ∈ name <$> buckets t' ↔ x = n ∨ x ∈ name <$> buckets t).
Proof.
  intros Hwf b. destruct (wf_chain t n Hwf) as [chain Hc].
  assert (bin_of t n < length (values t))%nat as Hlt
    by by eapply lookup_lt_Some.
  unfold store. fold b. rewrite Hc.
  destruct (overwrite b chain) as [chain'|] eqn:Ho.
  - destruct (overwrite_Some b chain chain' Ho) as (Hn & Hb & Hsub & Hin).
    set (t1 := {| values := <[bin_of t n := chain']> (values t);
                  bins := bins t; entries := entries t |}).
    assert (name <$> buckets t1 ≡ₚ name <$> buckets t) as Hp.
    { pose proof (concat_insert_swap (values t) _ chain chain' Hc) as Hs.
      apply (fmap_Permutation name) in Hs. rewrite !fmap_app, Hn in Hs.
      by apply Permutation_app_inv_l in Hs. }
    cbv zeta. split; [|split].
    + split.
      * simpl. rewrite length_insert. apply (wf_length t Hwf).
      * apply (wf_bins t Hwf).
      * apply (wf_bin_insert t _ chain chain' Hwf Hc).
        intros x Hx. destruct (Hsub x Hx) as [->|Hx']; [done|].
        by apply (wf_bin t Hwf _ chain x).
      * rewrite Hp. apply (wf_names t Hwf).
      * simpl. rewrite (wf_entries t Hwf).
        apply Permutation_length in Hp. by rewrite !length_fmap in Hp.
    + apply elem_of_buckets. exists (bin_of t n), chain'. split; [|done].
      simpl. by rewrite list_lookup_insert_eq.
    + intros x. rewrite Hp. split; [by right|]. intros [->|Hx]; [|done].
      apply list_elem_of_fmap in Hin as (b0 & Hn0 & Hb0).
      apply list_elem_of_fmap. exists b0. split; [done|].
      apply elem_of_buckets. by exists (bin_of t n), chain.
  - set (t1 := {| values := <[bin_of t n := b :: chain]> (values t);
                  bins := bins t; entries := S (entries t) |}).
    assert (buckets t1 ≡ₚ b :: buckets t) as Hp
      by by apply concat_insert_cons.
    assert (n ∉ name <$> buckets t) as Hfresh.
    { apply lookup_None; [done|]. unfold lookup. rewrite Hc. simpl.
      apply find_in_chain_None. by apply (overwrite_None b chain). }
    assert (wf t1) as Hwf1.
    { split.
      - simpl. rewrite length_insert. apply (wf_length t Hwf).
      - apply (wf_bins t Hwf).
      - apply (wf_bin_insert t _ chain (b :: chain) Hwf Hc).
        intros x Hx. apply elem_of_cons in Hx as [->|Hx]; [done|].
        by apply (wf_bin t Hwf _ chain x).
      - rewrite Hp, fmap_cons. apply NoDup_cons. split; [done|].
        apply (wf_names t Hwf).
      - simpl. rewrite (wf_entries t Hwf). by rewrite Hp. }
    assert (∀ t2, wf t2 → buckets t2 ≡ₚ buckets t1 →
              wf t2 ∧ b ∈ buckets t2 ∧
              ∀ x, x ∈ name <$> buckets t2 ↔ x = n ∨ x ∈ name <$> buckets t)
      as Hfin.
    { intros t2 Hwf2 Hp2. split; [done|]. split.
      - rewrite Hp2, Hp. left.
      - intros x. rewrite Hp2, Hp, fmap_cons, elem_of_cons. done. }
    cbv zeta. fold t1. destruct (entries t1 =? bins t1)%nat.
    + assert (0 < 2 * bins t1)%nat as Hpos
        by (pose proof (wf_bins t1 Hwf1); lia).
      apply Hfin.
      * apply wf_redistribute; [done | apply (wf_names t1 Hwf1)
                               | apply (wf_entries t1 Hwf1)].
      * by apply redistribute_buckets.
    + by apply Hfin.
Qed.

(** What [remove] does to a well-formed table. *)
Lemma remove_spec t n :
  wf t → wf (remove t n).2 ∧ lookup (remove t n).2 n = None.
Proof.
  intros Hwf. destruct (wf_chain t n Hwf) as [chain Hc].
  assert (bin_of t n < length (values t))%nat as Hlt
    by by eapply lookup_lt_Some.
  unfold remove. cbv zeta. rewrite Hc.
  destruct (unlink n chain) as [[b rest]|] eqn:Hu.
  - destruct (unlink_Some n chain b rest Hu) as [Hperm Hn].
    set (t1 := {| values := <[bin_of t n := rest]> (values t);
                  bins := bins t; entries := Nat.pred (entries t) |}).
    assert (buckets t ≡ₚ b :: buckets t1) as Hp.
    { pose proof (concat_insert_swap (values t) _ chain rest Hc) as Hs.
      rewrite Hperm in Hs. simpl in Hs.
      rewrite Permutation_middle in Hs.
      apply Permutation_app_inv_l in Hs.
      symmetry. exact Hs. }
    pose proof (wf_names t Hwf) as Hnd.
    rewrite Hp, fmap_cons in Hnd. apply NoDup_cons in Hnd as [Hfresh Hnd].
    assert (wf t1) as Hwf1.
    { split.
      - simpl. rewrite length_insert. apply (wf_length t Hwf).
      - apply (wf_bins t Hwf).
      - apply (wf_bin_insert t _ chain rest Hwf Hc).
        intros x Hx. apply (wf_bin t Hwf _ chain x Hc).
        rewrite Hperm. by right.
      - done.
      - simpl. rewrite (wf_entries t Hwf). by rewrite Hp. }
    simpl. split; [done|]. apply lookup_None; [done|]. by rewrite <- Hn.
  - simpl. split; [done|]. unfold lookup. rewrite Hc. simpl.
    by apply unlink_None.
Qed.

Lemma store_bucket_spec t b :
  wf t →
  wf (store_bucket t b) ∧
  (∀ x, x ∈ name <$> buckets (store_bucket t b)
        ↔ x = name b ∨ x ∈ name <$> buckets t).
Proof.
  intros Hwf. unfold store_bucket.
  destruct (store_spec t (name b) (method_id b) (method b) (scope b)
              (serial b) (visibility b) Hwf) as (Hwf' & _ & Hn).
  done.
Qed.

(** After any sequence of stores into a fresh table, the buckets carry
    exactly the names stored. *)
Lemma store_all_spec size (bs : list Bucket) :
  let t := foldl store_bucket (create size) bs in
  wf t ∧ ∀ x, x ∈ name <$> buckets t ↔ x ∈ name <$> bs.
Proof.
  induction bs as [|b bs IH] using rev_ind; cbv zeta.
  - simpl. split; [apply wf_create|]. by rewrite buckets_create.
  - rewrite foldl_snoc. destruct IH as [Hwf Hn].
    destruct (store_bucket_spec _ b Hwf) as [Hwf' Hn'].
    split; [done|]. intros x. rewrite Hn', Hn, fmap_app, elem_of_app.
    rewrite fmap_cons, list_elem_of_singleton. tauto.
Qed.

Lemma wf_entries_names t :
  wf t → entries t = size (list_to_set (name <$> buckets t) : gset Symbol).
Proof.
  intros Hwf. rewrite size_list_to_set by apply (wf_names t Hwf).
  by rewrite length_fmap, (wf_entries t Hwf).
Qed.

(** C9. Method-table round trip, on a table that satisfies the
    invariants of the data model: after [store(n, m, …)] a lookup of [n]
    finds a bucket whose method is [m]; after [remove(n)] a lookup of
    [n] finds nothing; and after any sequence of stores into a fresh
    table, [entries] is the number of distinct names stored. *)
Theorem method_table_round_trip (t : table) (n : Symbol)
    (mid m sc : Object) (ser : Z) (vis : Symbol) :
  wf t →
  (∃ b, lookup (store t n mid m sc ser vis) n = Some b ∧ method b = m) ∧
  lookup (remove t n).2 n = None ∧
  (lookup (remove (store t n mid m sc ser vis) n).2 n = None) ∧
  ∀ (sz : nat) (bs : list Bucket),
    entries (foldl store_bucket (create sz) bs)
    = size (list_to_set (name <$> bs) : gset Symbol).
Proof.
  intros Hwf.
  destruct (store_spec t n mid m sc ser vis Hwf) as (Hwf' & Hb & _).
  split_and!.
  - eexists. split; [by apply lookup_Some | reflexivity].
  - by apply remove_spec.
  - by apply remove_spec.
  - intros sz bs. destruct (store_all_spec sz bs) as [Hwfs Hn].
    rewrite (wf_entries_names _ Hwfs). f_equal.
    apply set_eq. intros x. rewrite !elem_of_list_to_set. apply Hn.
Qed.

End Facts.

End MethodTableFacts.

(** ** The properties at work on the small virtual machine *)

Lemma demo_internalize_run :
  @internalize demo 1%positive (demo_vm demo_good)
  = Ok (Some 1%positive) demo_internalized.
Proof. vm_compute. reflexivity. Qed.

Lemma u32_small z : 0 <= z < 256 → u32 z.
Proof. unfold u32. lia. Qed.

(** C1 on [demo_good]: internalized once, then again after a breakpoint
    was set and a copy made and internalized. *)
Lemma internalize_once_witness :
  codes (demo_vm demo_good) !! 1%positive = Some demo_good ∧
  machine_code demo_good = None ∧
  @verify demo demo_good = true ∧
  ∃ p st1,
    @internalize demo 1%positive (demo_vm demo_good) = Ok (Some p) st1 ∧
    ∀ st2,
      @perform_all demo [api_set_breakpoint 1%positive 4 cTrue;
                         api_dup 1%positive;
                         api_internalize 2%positive] st1 = Ok tt st2 →
      @internalize demo 1%positive st2 = Ok (Some p) st2.
Proof.
  split; [reflexivity|]. split; [reflexivity|]. split; [reflexivity|].
  destruct (@internalize_once demo (demo_vm demo_good) 1%positive demo_good
              eq_refl eq_refl eq_refl) as (p & st1 & Hrun & _ & _ & Hlater).
  exists p, st1. split; [exact Hrun|].
  intros st2 Hcalls. exact (proj1 (Hlater _ st2 Hcalls)).
Defined.

(** C2 on the internalized [demo_good]: class (7, 1) registered and
    dispatched to; before that, dispatched to the fallback. *)
Lemma specialized_dispatch_routing_witness :
  codes demo_internalized !! 1%positive = Some demo_good_code ∧
  machine_code demo_good_code = Some 1%positive ∧
  mcodes demo_internalized !! 1%positive = Some demo_good_mcode ∧
  (∃ st1,
     @add_specialized demo 1%positive 7 1 (Some (fn_other 1)) None
       demo_internalized = Ok tt st1 ∧
     @specialized_executor demo 1%positive demo_class st1
     = Ok (fn_other 1) st1) ∧
  @specialized_executor demo 1%positive demo_class demo_internalized
  = Ok fn_MachineCode_execute demo_internalized.
Proof.
  split; [reflexivity|]. split; [reflexivity|]. split; [reflexivity|].
  destruct (@specialized_dispatch_routing demo demo_internalized 1%positive
              demo_good_code 1%positive demo_good_mcode demo_class
              eq_refl eq_refl eq_refl ltac:(simpl; lia)) as [Hreg Hmiss].
  split.
  - destruct (Hreg 7 1 (fn_other 1) None
                (u32_small 7 ltac:(lia)) (u32_small 1 ltac:(lia)))
      as (st1 & Hadd & Hcall).
    exists st1. split; [exact Hadd | exact (Hcall eq_refl)].
  - apply Hmiss; [|reflexivity|reflexivity].
    intros i _. vm_compute. discriminate.
Defined.

(** C3 on the line table of [demo_good], (0, 10) (4, 12) (9, 15), and on
    [demo_bad], which has none. *)
Lemma line_lookup_witness :
  line demo_good 5 = Some 12 ∧ line demo_good 20 = Some 15 ∧
  line demo_bad 5 = Some (-3).
Proof.
  split; [|split].
  - destruct (line_lookup demo_good 5) as [_ Hps].
    destruct (Hps [(0, 10); (4, 12); (9, 15)] eq_refl ltac:(done)) as [Hfirst _].
    apply (Hfirst 1%nat (4, 12)).
    + exists (4, 12), (9, 15). simpl. split; [reflexivity|].
      split; [reflexivity|lia].
    + intros j Hj (p & q & Hp & Hq & Hb).
      destruct j as [|j]; [|lia]. simpl in Hp, Hq.
      injection Hp as <-. injection Hq as <-. simpl in Hb. lia.
    + reflexivity.
  - destruct (line_lookup demo_good 20) as [_ Hps].
    destruct (Hps [(0, 10); (4, 12); (9, 15)] eq_refl ltac:(done)) as [_ Hlast].
    destruct Hlast as (p & Hp & Hline).
    + intros i (p & q & Hp & Hq & Hb).
      destruct i as [|[|[|i]]]; simpl in Hp, Hq; try discriminate;
        injection Hq as <-; simpl in Hb; lia.
    + simpl in Hp. injection Hp as <-. exact Hline.
  - destruct (line_lookup demo_bad 5) as [Hnone _].
    exact (Hnone eq_refl).
Defined.

Lemma demo_lines_ascending : ascending [(0, 10); (4, 12); (9, 15)].
Proof.
  intros i j p q Hij Hp Hq.
  destruct i as [|[|[|i]]]; destruct j as [|[|[|j]]];
    simpl in Hp, Hq; try discriminate; try lia;
    injection Hp as <-; injection Hq as <-; simpl; lia.
Defined.

(** C10 on the line table of [demo_good]: ip -1 lies before the first
    start ip and gets the last line, 15. *)
Lemma line_before_first_witness :
  lines demo_good = Some (flat [(0, 10); (4, 12); (9, 15)]) ∧
  -1 < 0 ∧ line demo_good (-1) = Some 15.
Proof.
  split; [reflexivity|]. split; [lia|].
  destruct (line_before_first demo_good [(0, 10); (4, 12); (9, 15)] (-1) (0, 10)
              eq_refl demo_lines_ascending eq_refl ltac:(simpl; lia))
    as (p & Hp & Hline).
  simpl in Hp. injection Hp as <-. exact Hline.
Defined.

(** C4 on the internalized [demo_good], at ip 4. *)
Lemma breakpoint_lifecycle_witness :
  codes demo_internalized !! 1%positive = Some demo_good_code ∧
  @validate_ip demo (opcodes demo_good_mcode) (to_int 4) = true ∧
  ∃ st1 st2,
    @set_breakpoint demo 1%positive 4 cTrue demo_internalized
    = Ok (Fixnum 4) st1 ∧
    @is_breakpoint demo 1%positive 4 st1 = Ok cTrue st1 ∧
    @clear_breakpoint demo 1%positive 4 st1 = Ok cTrue st2 ∧
    @is_breakpoint demo 1%positive 4 st2 = Ok cFalse st2.
Proof.
  split; [reflexivity|]. split; [reflexivity|].
  destruct (@breakpoint_lifecycle demo demo_internalized 1%positive
              demo_good_code 1%positive demo_good_mcode 4 cTrue
              eq_refl eq_refl eq_refl eq_refl
              ltac:(intros t Ht; discriminate Ht))
    as (st1 & v1 & Hset & Hq1 & _ & _ & _ & st2 & v2 & Hclr & Hq2 & _).
  exists st1, st2. repeat (split; [assumption|]). assumption.
Defined.

(** C5 on [demo_bad], whose empty bytecode the verifier rejects. *)
Lemma breakpoint_queries_without_machine_code_witness :
  codes (demo_vm demo_bad) !! 1%positive = Some demo_bad ∧
  machine_code demo_bad = None ∧
  @verify demo demo_bad = false ∧
  @clear_breakpoint demo 1%positive 4 (demo_vm demo_bad)
  = Ok (Fixnum 4) (demo_vm demo_bad) ∧
  @is_breakpoint demo 1%positive 4 (demo_vm demo_bad)
  = Ok cFalse (demo_vm demo_bad).
Proof.
  split; [reflexivity|]. split; [reflexivity|]. split; [reflexivity|].
  exact (@breakpoint_queries_without_machine_code demo (demo_vm demo_bad)
           1%positive demo_bad 4 eq_refl eq_refl).
Defined.

(** C6 on the internalized [demo_good]: the first registration goes to
    slot 0 and makes the specialized dispatcher the executor. *)
Lemma add_specialized_placement_witness :
  codes demo_internalized !! 1%positive = Some demo_good_code ∧
  u32 7 ∧ u32 1 ∧
  ∃ i st' v' c',
    @add_specialized demo 1%positive 7 1 (Some (fn_other 1)) None
      demo_internalized = Ok tt st' ∧
    mcodes st' !! 1%positive = Some v' ∧
    f_class_id (class_data (specializations v' i)) = 7 ∧
    codes st' !! 1%positive = Some c' ∧
    execute c' = Some fn_specialized_executor.
Proof.
  split; [reflexivity|].
  split; [apply u32_small; lia|]. split; [apply u32_small; lia|].
  destruct (@add_specialized_placement demo demo_internalized 1%positive
              demo_good_code 7 1 (Some (fn_other 1)) None eq_refl
              (u32_small 7 ltac:(lia)) (u32_small 1 ltac:(lia)))
    as [_ Hsome].
  destruct (Hsome 1%positive demo_good_mcode eq_refl eq_refl)
    as (i & st' & v' & c' & Hadd & _ & Hv' & Hid & _ & _ & _ & _ & Hc' & Hex & _).
  exists i, st', v', c'. repeat (split; [assumption|]). exact (Hex eq_refl).
Defined.

(** C7 on [demo_good]. *)
Lemma dup_frame_witness :
  codes (demo_vm demo_good) !! 1%positive = Some demo_good ∧
  ∃ code st' d,
    dup 1%positive (demo_vm demo_good) = Ok code st' ∧
    codes st' !! code = Some d ∧
    execute d = Some fn_default_executor ∧ machine_code d = None ∧
    iseq d = iseq demo_good ∧
    codes st' !! 1%positive = Some demo_good.
Proof.
  split; [reflexivity|].
  destruct (dup_frame (demo_vm demo_good) 1%positive demo_good eq_refl)
    as (code & st' & d & Hdup & _ & Hd & He & Hm & _ & _ & _ & Hi & _ & _ & _
        & _ & _ & _ & _ & _ & _ & _ & _ & _ & _ & Hself & _).
  exists code, st', d. repeat (split; [assumption|]). assumption.
Defined.

(** C8 on the internalized [demo_good], whose cache is empty. *)
Lemma can_specialize_p_raw_witness :
  codes demo_internalized !! 1%positive = Some demo_good_code ∧
  mcodes demo_internalized !! 1%positive = Some demo_good_mcode ∧
  @can_specialize_p demo 1%positive demo_internalized
  = Ok true demo_internalized.
Proof.
  split; [reflexivity|]. split; [reflexivity|].
  destruct (@can_specialize_p_raw demo demo_internalized 1%positive
              demo_good_code 1%positive demo_good_mcode
              eq_refl eq_refl eq_refl) as (b & Hrun & Hb).
  assert (b = true) as ->.
  { apply Hb. exists O. split; [simpl; lia | reflexivity]. }
  exact Hrun.
Defined.

(** C9 on a fresh table of sixteen bins. *)
Lemma method_table_round_trip_witness :
  @MethodTable.wf demo_interner (MethodTable.create 0) ∧
  (∃ b, @MethodTable.lookup demo_interner
          (@MethodTable.store demo_interner (MethodTable.create 0)
             3%positive cNil (Handle 5%positive) cNil 0 11%positive)
          3%positive = Some b ∧
        MethodTable.method b = Handle 5%positive) ∧
  MethodTable.entries
    (foldl (@MethodTable.store_bucket demo_interner) (MethodTable.create 0) [])
  = 0%nat.
Proof.
  pose proof (@MethodTableFacts.wf_create demo_interner 0) as Hwf.
  split; [exact Hwf|].
  destruct (@MethodTableFacts.method_table_round_trip demo_interner
              (MethodTable.create 0) 3%positive cNil (Handle 5%positive) cNil 0
              11%positive Hwf) as (Hstore & _ & _ & Hcount).
  split; [exact Hstore|]. exact (Hcount 0%nat []).
Defined.

(** * Further properties of the code *)

(** ** Line table, edge cases *)

Lemma at_in_range t k :
  0 <= k < Z.of_nat (length t) → is_Some (at_ t k).
Proof.
  intros Hk. unfold at_.
  replace (_ || _) with false
    by (symmetry; apply orb_false_iff; split;
        [apply Z.ltb_ge | apply Z.leb_gt]; lia).
  apply lookup_lt_is_Some_2. lia.
Qed.

Lemma line_loop_total fuel t i ip :
  t ≠ [] → 0 <= i →
  Z.of_nat (length t) - 2 - i <= 2 * Z.of_nat fuel →
  is_Some (line_loop fuel t (Z.of_nat (length t) - 2) i ip).
Proof.
  intros Hne. revert i.
  assert (0 < Z.of_nat (length t)) as Hlen by (destruct t; [done | simpl; lia]).
  induction fuel as [|fuel IH]; intros i Hi Hfuel; cbn [line_loop].
  - replace (i <? _) with false by (symmetry; apply Z.ltb_ge; lia).
    destruct (at_in_range t (Z.of_nat (length t) - 2 + 1) ltac:(lia)) as [x ->].
    by eexists.
  - destruct (Z.ltb_spec i (Z.of_nat (length t) - 2)) as [Hlt|Hge].
    + destruct (at_in_range t i ltac:(lia)) as [a ->].
      destruct (at_in_range t (i + 2) ltac:(lia)) as [b ->].
      destruct (at_in_range t (i + 1) ltac:(lia)) as [l ->].
      simpl. destruct ((a <=? ip) && (b >? ip)); [by eexists|].
      apply IH; lia.
    + destruct (at_in_range t (Z.of_nat (length t) - 2 + 1) ltac:(lia)) as [x ->].
      by eexists.
Qed.

(** X1. [line] fails on exactly one kind of line table, the empty tuple;
    on every other tuple of fixnums, also one of odd length, it returns a
    value. *)
Theorem line_fails_iff_empty (c : CompiledCode) (ip : Z) (t : list Z) :
  lines c = Some t → (line c ip = None ↔ t = []).
Proof.
  intros Hl. unfold line. rewrite Hl. cbv zeta. split.
  - intros Hnone. destruct (decide (t = [])) as [|Hne]; [done|].
    destruct (line_loop_total (length t) t 0 ip Hne ltac:(lia) ltac:(lia))
      as [x Hx].
    congruence.
  - intros ->. reflexivity.
Qed.

Lemma line_of_pairs_elem ps ip :
  ps ≠ [] → ∃ p, p ∈ ps ∧ line_of_pairs ps ip = Some p.2.
Proof.
  induction ps as [|p0 ps IH]; intros Hne; [done|].
  destruct ps as [|q ps].
  - exists p0. split; [left | done].
  - cbn [line_of_pairs]. destruct ((p0.1 <=? ip) && (ip <? q.1)).
    + exists p0. split; [left | done].
    + destruct (IH ltac:(done)) as (p & Hp & Hline).
      exists p. split; [by right | done].
Qed.

(** X2. Whatever the ip, [line] answers one of the lines recorded in the
    table (as a C [int]); it never makes a line number up. *)
Theorem line_is_recorded (c : CompiledCode) (ps : list (Z * Z)) (ip : Z) :
  lines c = Some (flat ps) → ps ≠ [] →
  ∃ p, p ∈ ps ∧ line c ip = Some (to_int p.2).
Proof.
  intros Hl Hne. rewrite (line_pairs c ps ip Hl Hne).
  destruct (line_of_pairs_elem ps ip Hne) as (p & Hp & ->).
  by exists p.
Qed.

(** X3. In a line table with ascending start ips, [line] answers the line of
    the last pair that starts at or before the ip: the pair [k] with
    start_k <= ip whose successor, if there is one, starts after ip. *)
Theorem line_ascending_last_start (c : CompiledCode) (ps : list (Z * Z))
    (ip : Z) (k : nat) (p : Z * Z) :
  lines c = Some (flat ps) → ascending ps →
  ps !! k = Some p → p.1 <= ip →
  (∀ q, ps !! S k = Some q → ip < q.1) →
  line c ip = Some (to_int p.2).
Proof.
  intros Hl Hasc Hk Hle Hnext.
  assert (ps ≠ []) as Hne by (intros ->; done).
  rewrite (line_pairs c ps ip Hl Hne).
  assert (∀ j, (j < k)%nat → ¬ brackets ps ip j) as Hbefore.
  { intros j Hj (a & b & Ha & Hb & Hab).
    pose proof (Hasc (S j) k b p ltac:(lia) Hb Hk). lia. }
  destruct (ps !! S k) as [q|] eqn:Hq.
  - rewrite (line_of_pairs_first ps ip k p); [done| |done|done].
    exists p, q. split; [done|]. split; [done|].
    split; [done | by apply Hnext].
  - rewrite line_of_pairs_none.
    + rewrite last_lookup.
      apply lookup_ge_None in Hq. pose proof (lookup_lt_Some _ _ _ Hk) as Hlt.
      replace (Init.Nat.pred (length ps)) with k by lia. by rewrite Hk.
    + intros j (a & b & Ha & Hb & Hab).
      assert (S j <= k)%nat as Hjk.
      { apply lookup_ge_None in Hq. apply lookup_lt_Some in Hb. lia. }
      pose proof (Hasc (S j) k b p Hjk Hb Hk). lia.
Qed.

(** X4. [start_line] never fails: it answers -1 for a missing table and for
    a tuple of fewer than two entries, else the second entry of the tuple,
    whatever its length; and [line] agrees with it on every ip the first
    pair brackets, and on every ip at all when the table has a single
    pair. *)
Theorem start_line_first_pair (c : CompiledCode) :
  is_Some (start_line c) ∧
  (lines c = None → start_line c = Some (-1)) ∧
  (∀ t, lines c = Some t → (length t < 2)%nat → start_line c = Some (-1)) ∧
  (∀ t, lines c = Some t → (2 <= length t)%nat →
     ∃ l, t !! 1%nat = Some l ∧ start_line c = Some (to_int l)) ∧
  (∀ p ps, lines c = Some (flat (p :: ps)) →
     start_line c = Some (to_int p.2) ∧
     (ps = [] → ∀ ip, line c ip = start_line c) ∧
     (∀ q ip, ps !! O = Some q → p.1 <= ip < q.1 →
              line c ip = start_line c)).
Proof.
  assert (∀ t, lines c = Some t → (2 <= length t)%nat →
            ∃ l, t !! 1%nat = Some l ∧ start_line c = Some (to_int l))
    as Hsecond.
  { intros t Hl Hlen. unfold start_line. rewrite Hl.
    replace (_ <? 2) with false by (symmetry; apply Z.ltb_ge; lia).
    destruct (lookup_lt_is_Some_2 t 1%nat ltac:(lia)) as [l Hl1].
    exists l. split; [done|]. unfold at_.
    replace (_ || _) with false
      by (symmetry; apply orb_false_iff; split;
          [apply Z.ltb_ge | apply Z.leb_gt]; lia).
    change (Z.to_nat 1) with 1%nat. by rewrite Hl1. }
  split_and!.
  - unfold start_line. destruct (lines c) as [t|] eqn:Hl; [|by eexists].
    destruct (Z.ltb_spec (Z.of_nat (length t)) 2) as [Hlt|Hge];
      [by eexists|].
    destruct (at_in_range t 1 ltac:(lia)) as [x ->]. by eexists.
  - intros Hl. unfold start_line. by rewrite Hl.
  - intros t Hl Hlen. unfold start_line. rewrite Hl.
    replace (_ <? 2) with true by (symmetry; apply Z.ltb_lt; lia). done.
  - exact Hsecond.
  - intros p ps Hl.
    assert (start_line c = Some (to_int p.2)) as Hs.
    { destruct (Hsecond _ Hl) as (l & Hl1 & Hsl).
      - rewrite length_flat. simpl. lia.
      - simpl in Hl1. injection Hl1 as <-. exact Hsl. }
    split; [done|]. rewrite Hs. split.
    + intros -> ip. by rewrite (line_pairs c [p] ip Hl).
    + intros q ip Hq Hb. rewrite (line_pairs c (p :: ps) ip Hl) by done.
      destruct ps as [|q' ps]; [done|]. simpl in Hq. injection Hq as ->.
      cbn [line_of_pairs].
      replace ((p.1 <=? ip) && (ip <? q.1)) with true; [done|].
      symmetry. apply andb_true_iff.
      split; [apply Z.leb_le | apply Z.ltb_lt]; lia.
Qed.

(** ** Specialization cache, further *)

(** A registration, seen from the scans that read the cache: slot [i] holds
    the class-data word of the class, and no slot before it does. *)
Lemma add_specialized_first `{Externals} (st : VM) (self : ref)
    (c : CompiledCode) (cid sid : Z) (e : executor)
    (rd : option RuntimeDataHolder) p v :
  codes st !! self = Some c → u32 cid → u32 sid →
  machine_code c = Some p → mcodes st !! p = Some v →
  (0 < cMaxSpecializations)%nat →
  ∃ i st1 v1 c1,
    add_specialized self cid sid e rd st = Ok tt st1 ∧
    codes st1 !! self = Some c1 ∧ machine_code c1 = Some p ∧
    mcodes st1 !! p = Some v1 ∧ (i < cMaxSpecializations)%nat ∧
    raw (class_data (specializations v1 i)) = raw (class_data_of cid sid) ∧
    spec_execute (specializations v1 i) = e ∧
    ∀ j, (j < i)%nat →
         raw (class_data (specializations v1 j)) ≠ raw (class_data_of cid sid).
Proof.
  intros Hc Hcid Hsid Hm Hv HN.
  destruct (add_specialized_run st self c cid sid e rd p v Hc Hcid Hsid Hm Hv)
    as (i & st1 & v1 & c1 & Hrun & Hplace & Hv1 & F1 & F2 & F0 & F3 & F4
        & Hoth & _ & _ & _ & Hc1 & Hprim & Hnoprim).
  exists i, st1, v1, c1. split; [done|]. split; [done|]. split.
  { destruct (primitive c) eqn:Hp.
    - by rewrite (Hnoprim ltac:(done)).
    - by rewrite (Hprim eq_refl). }
  split; [done|]. split.
  { destruct Hplace as [(Hi & _) | (_ & -> & _)]; lia. }
  split; [done|]. split; [done|].
  intros j Hj Hraw.
  destruct Hplace as [(Hi & _ & Hfirst & _) | (_ & -> & _)]; [|lia].
  rewrite Hoth in Hraw by lia.
  apply (Hfirst j); [lia|]. right.
  rewrite <- (to_u32_id cid Hcid), <- (f_class_id_of cid sid).
  by apply f_class_id_raw.
Qed.

(** X5. Registration and query round trip: after
    [add_specialized(cid, s, e, …)] on an internalized code object,
    [find_specialized] for a class whose class data is (cid, s) answers [e]
    and changes nothing. *)
Theorem find_specialized_registered `{Externals} (st : VM) (self : ref)
    (c : CompiledCode) (p : ref) (v : MachineCode) (cls : Class)
    (cid sid : Z) (e : executor) (rd : option RuntimeDataHolder) :
  codes st !! self = Some c → machine_code c = Some p →
  mcodes st !! p = Some v → (0 < cMaxSpecializations)%nat →
  u32 cid → u32 sid → data cls = class_data_of cid sid →
  ∃ st1, add_specialized self cid sid e rd st = Ok tt st1 ∧
         find_specialized self cls st1 = Ok e st1.
Proof.
  intros Hc Hm Hv HN Hcid Hsid Hcls.
  destruct (add_specialized_first st self c cid sid e rd p v
              Hc Hcid Hsid Hm Hv HN)
    as (i & st1 & v1 & c1 & Hrun & Hc1 & Hm1 & Hv1 & Hi & Hraw & Hex & Hbefore).
  exists st1. split; [done|].
  assert (scan (λ s, raw (class_data s) =? data_raw cls)
               (specializations v1) 0 cMaxSpecializations = Some i) as Hscan.
  { unfold data_raw. rewrite Hcls. apply scan_first; [lia | |].
    - by apply Z.eqb_eq.
    - intros j Hj. apply Z.eqb_neq, Hbefore. lia. }
  unfold find_specialized. run. by rewrite Hex.
Qed.

(** X6. What [find_specialized] finds is what dispatch calls: if it answers
    a non-null executor for a class, both [specialized_executor] and
    [primitive_failed] pass a receiver of that class to that executor. *)
Theorem find_specialized_agrees `{Externals} (st st' : VM) (self : ref)
    (cls : Class) (f : fn) :
  find_specialized self cls st = Ok (Some f) st' →
  specialized_executor self cls st = Ok f st ∧
  primitive_failed self cls st = Ok f st.
Proof.
  unfold find_specialized. run.
  destruct (codes st !! self) as [c|] eqn:Hc; [|done].
  destruct (machine_code c) as [p|] eqn:Hm; [|done]. run.
  destruct (mcodes st !! p) as [v|] eqn:Hv; [|done].
  destruct (scan _ (specializations v) 0 cMaxSpecializations) as [i|] eqn:E;
    [|done].
  intros [= Hex _].
  destruct (scan_Some _ _ _ _ _ E) as (Hr & Hi & Hb).
  assert (scan (λ s, (raw (class_data s) =? data_raw cls)
                       && non_null (spec_execute s))
               (specializations v) 0 cMaxSpecializations = Some i) as Hscan.
  { apply scan_first; [done | by rewrite Hi, Hex |].
    intros j Hj. by rewrite (Hb j Hj). }
  split.
  - unfold specialized_executor, dispatch_target. run.
    rewrite ?Hex. unfold non_null. run. done.
  - unfold primitive_failed, dispatch_target. run.
    rewrite ?Hex. unfold non_null. run. done.
Qed.

(** X7. [primitive_failed] always finds something to call on an
    internalized code object: the function [specialized_executor] calls, or,
    when no slot matches and there is no unspecialized executor, the
    interpreter entry [MachineCode::execute] (where [specialized_executor]
    would turn to the fallback). *)
Theorem primitive_failed_total `{Externals} (st : VM) (self : ref)
    (c : CompiledCode) (p : ref) (v : MachineCode) (cls : Class) :
  codes st !! self = Some c → machine_code c = Some p →
  mcodes st !! p = Some v →
  ∃ f, primitive_failed self cls st = Ok f st ∧
       (specialized_executor self cls st = Ok f st ∨
        (dispatch_target v (data_raw cls) = None ∧
         f = fn_MachineCode_execute ∧
         specialized_executor self cls st = call (fallback v) st)).
Proof.
  intros Hc Hm Hv. unfold primitive_failed, specialized_executor. run.
  destruct (dispatch_target v (data_raw cls)) as [f|] eqn:E; simpl.
  - exists f. split; [done|]. by left.
  - exists fn_MachineCode_execute. split; [done|]. by right.
Qed.

(** X8. [set_unspecialized] on an internalized code object installs the
    executor for receivers no slot matches and leaves cache and fallback
    alone; it becomes the top-level executor too exactly when no slot is in
    use and the code has no primitive. Afterwards a receiver whose class is
    in no slot is passed to it. *)
Theorem set_unspecialized_installs `{Externals} (st : VM) (self : ref)
    (c : CompiledCode) (p : ref) (v : MachineCode) (f : fn)
    (rd : option RuntimeDataHolder) :
  codes st !! self = Some c → machine_code c = Some p →
  mcodes st !! p = Some v →
  ∃ st1 c1 v1,
    set_unspecialized self (Some f) rd st = Ok tt st1 ∧
    codes st1 !! self = Some c1 ∧ machine_code c1 = Some p ∧
    mcodes st1 !! p = Some v1 ∧
    unspecialized v1 = Some f ∧ execute_status v1 = eJIT ∧
    specializations v1 = specializations v ∧ fallback v1 = fallback v ∧
    (execute c1 = Some f ∨ execute c1 = execute c) ∧
    (((∀ i, (i < cMaxSpecializations)%nat →
            raw (class_data (specializations v i)) <= 0) ∧
      primitive c = None) → execute c1 = Some f) ∧
    (((∃ i, (i < cMaxSpecializations)%nat ∧
            0 < raw (class_data (specializations v i))) ∨
      primitive c ≠ None) → execute c1 = execute c) ∧
    ∀ cls, (∀ i, (i < cMaxSpecializations)%nat →
                 class_data (specializations v i) ≠ data cls) →
           specialized_executor self cls st1 = Ok f st1.
Proof.
  intros Hc Hm Hv.
  assert (∀ cls c1 st1 (v1 : MachineCode),
            codes st1 !! self = Some c1 → machine_code c1 = Some p →
            mcodes st1 !! p = Some v1 → unspecialized v1 = Some f →
            specializations v1 = specializations v →
            (∀ i, (i < cMaxSpecializations)%nat →
                  class_data (specializations v i) ≠ data cls) →
            specialized_executor self cls st1 = Ok f st1) as Hmiss.
  { intros cls c1 st1 v1 Hc1 Hm1 Hv1 Hu Hs Hnone.
    assert (scan (λ s, (raw (class_data s) =? data_raw cls)
                         && non_null (spec_execute s))
                 (specializations v1) 0 cMaxSpecializations = None) as Hscan.
    { rewrite Hs. apply scan_None. intros j Hj. apply andb_false_iff. left.
      apply Z.eqb_neq. intros Hraw. apply (Hnone j); [lia|].
      revert Hraw. unfold data_raw.
      destruct (class_data (specializations v j)), (data cls).
      simpl. by intros ->. }
    unfold specialized_executor, dispatch_target. run.
    unfold non_null. run. done. }
  unfold set_unspecialized. run.
  destruct ENABLE_LLVM; run;
    cbn [specializations set_unspecialized_field set_execute_status].
  all: destruct (scan _ (specializations v) 0 cMaxSpecializations)
         as [i|] eqn:E;
       [ destruct (scan_Some _ _ _ _ _ E) as (Hr & Hi & _);
         apply Z.gtb_lt in Hi
       | pose proof (proj1 (scan_None _ _ _ _) E) as Hb;
         assert (∀ i, (i < cMaxSpecializations)%nat →
                      raw (class_data (specializations v i)) <= 0) as Hall
           by (intros i Hi; specialize (Hb i ltac:(lia)); cbn in Hb;
               rewrite Z.gtb_ltb in Hb; apply Z.ltb_ge in Hb; done);
         destruct (primitive c) as [prim|] eqn:Hp; run ].
  all: eexists _, _, _; (split; [reflexivity|]); run;
    (split; [reflexivity|]); (split; [done|]); (split; [reflexivity|]);
    split_and!; try done;
    try (by left); try (by right);
    try (intros [Hle _]; specialize (Hle i ltac:(lia)); lia);
    try (intros [_ ?]; done);
    try (intros [(i & Hi & Hpos) | ?]; [specialize (Hall i Hi); lia | done]);
    try (intros cls Hnone; eapply Hmiss; run; done).
Qed.

(** X9. Without machine code the specialization entry points part ways:
    [can_specialize_p] and [set_unspecialized] abort the process through
    [rubinius::bug], while [find_specialized] answers null and changes
    nothing. *)
Theorem no_backend `{Externals} (st : VM) (self : ref) (c : CompiledCode)
    (exec : executor) (rd : option RuntimeDataHolder) (cls : Class) :
  codes st !! self = Some c → machine_code c = None →
  can_specialize_p self st = Bug "specializing with no backend" ∧
  set_unspecialized self exec rd st = Bug "specializing with no backend" ∧
  find_specialized self cls st = Ok None st.
Proof.
  intros Hc Hm. split_and!.
  - unfold can_specialize_p. run. done.
  - unfold set_unspecialized. run. done.
  - unfold find_specialized. run. done.
Qed.

(** The cache after a registration, slot by slot. *)
Lemma add_specialized_slots `{Externals} (st : VM) (self : ref)
    (c : CompiledCode) (cid sid : Z) (e : executor)
    (rd : option RuntimeDataHolder) p v :
  codes st !! self = Some c → u32 cid → u32 sid →
  machine_code c = Some p → mcodes st !! p = Some v →
  ∃ i st1 v1,
    add_specialized self cid sid e rd st = Ok tt st1 ∧
    mcodes st1 !! p = Some v1 ∧
    (((i < cMaxSpecializations)%nat ∧ takes v cid i ∧
      (∀ j, (j < i)%nat → ¬ takes v cid j) ∧ log st1 = log st)
     ∨ ((∀ j, (j < cMaxSpecializations)%nat → ¬ takes v cid j) ∧ i = O)) ∧
    f_class_id (class_data (specializations v1 i)) = cid ∧
    f_serial_id (class_data (specializations v1 i)) = sid ∧
    spec_execute (specializations v1 i) = e ∧
    spec_jit_data (specializations v1 i) = rd ∧
    (∀ j, j ≠ i → specializations v1 j = specializations v j).
Proof.
  intros Hc Hcid Hsid Hm Hv.
  destruct (add_specialized_run st self c cid sid e rd p v Hc Hcid Hsid Hm Hv)
    as (i & st1 & v1 & c1 & Hrun & Hplace & Hv1 & F1 & F2 & F0 & F3 & F4
        & Hoth & _).
  exists i, st1, v1. split_and!; try done.
  destruct Hplace as [?|(? & ? & _)]; [by left | by right].
Qed.

(** X10. Registering a non-zero class id keeps the cache in order: no class
    id sits in two slots, the free slots follow the used ones, and a free
    slot is zero as a whole. *)
Theorem add_specialized_keeps_cache_wf `{Externals} (st : VM) (self : ref)
    (c : CompiledCode) (p : ref) (v : MachineCode) (cid sid : Z)
    (e : executor) (rd : option RuntimeDataHolder) :
  codes st !! self = Some c → machine_code c = Some p →
  mcodes st !! p = Some v → u32 cid → u32 sid → cid ≠ 0 →
  cache_wf cMaxSpecializations (specializations v) →
  ∃ st1 v1,
    add_specialized self cid sid e rd st = Ok tt st1 ∧
    mcodes st1 !! p = Some v1 ∧
    cache_wf cMaxSpecializations (specializations v1).
Proof.
  intros Hc Hm Hv Hcid Hsid Hnz (Hdist & Hsuffix & Hzero).
  destruct (add_specialized_slots st self c cid sid e rd p v Hc Hcid Hsid Hm Hv)
    as (i & st1 & v1 & Hrun & Hv1 & Hplace & F1 & _ & _ & _ & Hoth).
  exists st1, v1. split; [done|]. split; [done|].
  assert (∀ j, (j < cMaxSpecializations)%nat → j ≠ i →
               f_class_id (class_data (specializations v j)) ≠ cid) as Hfree.
  { intros j Hj Hji Hid.
    destruct Hplace as [(Hi & Htake & Hfirst & _) | (Hfull & ->)].
    - destruct (decide (j < i)%nat) as [Hlt|Hge].
      + apply (Hfirst j Hlt). by right.
      + destruct Htake as [Hz|Hsame].
        * rewrite (Hsuffix i j) in Hid; [congruence | lia | done | done].
        * apply Hji. symmetry.
          apply (Hdist i j); [done | done | congruence | congruence].
    - apply (Hfull j Hj). by right. }
  assert (∀ j, (j < i)%nat →
               f_class_id (class_data (specializations v j)) ≠ 0) as Hused.
  { intros j Hj Hz.
    destruct Hplace as [(Hi & _ & Hfirst & _) | (_ & ->)]; [|lia].
    apply (Hfirst j Hj). by left. }
  split_and!.
  - intros a b Ha Hb Hna Hab.
    destruct (decide (a = i)) as [->|Hai]; destruct (decide (b = i)) as [->|Hbi];
      [done | | | ].
    + rewrite F1, (Hoth b Hbi) in Hab. exfalso. by apply (Hfree b Hb Hbi).
    + rewrite F1, (Hoth a Hai) in Hab. exfalso. by apply (Hfree a Ha Hai).
    + rewrite (Hoth a Hai) in Hna, Hab. rewrite (Hoth b Hbi) in Hab.
      by apply Hdist.
  - intros a b Hab Hb Hz.
    destruct (decide (a = i)) as [->|Hai]; [rewrite F1 in Hz; done|].
    rewrite (Hoth a Hai) in Hz.
    destruct (decide (b = i)) as [->|Hbi].
    + exfalso. destruct (decide (a < i)%nat) as [Hlt|Hge]; [|lia].
      by apply (Hused a Hlt).
    + rewrite (Hoth b Hbi). by apply (Hsuffix a b).
  - intros a Ha Hz.
    destruct (decide (a = i)) as [->|Hai]; [rewrite F1 in Hz; done|].
    rewrite (Hoth a Hai) in Hz |- *. by apply Hzero.
Qed.

(** X11. A class keeps one slot: in a cache in order, registering again a
    class id that slot [k] already holds rewrites slot [k] and nothing
    else, with no warning. *)
Theorem add_specialized_in_place `{Externals} (st : VM) (self : ref)
    (c : CompiledCode) (p : ref) (v : MachineCode) (k : nat) (cid sid : Z)
    (e : executor) (rd : option RuntimeDataHolder) :
  codes st !! self = Some c → machine_code c = Some p →
  mcodes st !! p = Some v → u32 cid → u32 sid → cid ≠ 0 →
  cache_wf cMaxSpecializations (specializations v) →
  (k < cMaxSpecializations)%nat →
  f_class_id (class_data (specializations v k)) = cid →
  ∃ st1 v1,
    add_specialized self cid sid e rd st = Ok tt st1 ∧
    log st1 = log st ∧ mcodes st1 !! p = Some v1 ∧
    f_class_id (class_data (specializations v1 k)) = cid ∧
    f_serial_id (class_data (specializations v1 k)) = sid ∧
    spec_execute (specializations v1 k) = e ∧
    spec_jit_data (specializations v1 k) = rd ∧
    ∀ j, j ≠ k → specializations v1 j = specializations v j.
Proof.
  intros Hc Hm Hv Hcid Hsid Hnz (Hdist & Hsuffix & _) Hk Hid.
  destruct (add_specialized_slots st self c cid sid e rd p v Hc Hcid Hsid Hm Hv)
    as (i & st1 & v1 & Hrun & Hv1 & Hplace & F1 & F2 & F3 & F4 & Hoth).
  assert (takes v cid k) as Htk by by right.
  assert (i = k ∧ log st1 = log st) as [-> Hlog].
  { destruct Hplace as [(Hi & Htake & Hfirst & Hlog) | (Hfull & _)].
    - split; [|done].
      assert (i <= k)%nat as Hik.
      { destruct (decide (k < i)%nat) as [Hlt|]; [|lia].
        by destruct (Hfirst k Hlt). }
      destruct Htake as [Hz|Hsame].
      + rewrite (Hsuffix i k Hik Hk Hz) in Hid. congruence.
      + apply (Hdist i k); [done | done | congruence | congruence].
    - by destruct (Hfull k Hk). }
  exists st1, v1. split_and!; done.
Qed.

(** X12. On a cache in order, [can_specialize_p] answers true exactly when
    some slot has class id zero, and that is when the last slot is free. *)
Theorem can_specialize_p_free_slot `{Externals} (st : VM) (self : ref)
    (c : CompiledCode) (p : ref) (v : MachineCode) :
  codes st !! self = Some c → machine_code c = Some p →
  mcodes st !! p = Some v → (0 < cMaxSpecializations)%nat →
  cache_wf cMaxSpecializations (specializations v) →
  ∃ b, can_specialize_p self st = Ok b st ∧
       (b = true ↔ ∃ i, (i < cMaxSpecializations)%nat ∧
                        f_class_id (class_data (specializations v i)) = 0) ∧
       (b = true ↔
        f_class_id (class_data
                      (specializations v (Nat.pred cMaxSpecializations))) = 0).
Proof.
  intros Hc Hm Hv HN (_ & Hsuffix & Hzero). unfold can_specialize_p. run.
  assert (∀ i, raw (class_data (specializations v i)) = 0 →
               f_class_id (class_data (specializations v i)) = 0) as Hraw.
  { intros i Hi. unfold f_class_id. by rewrite Hi. }
  destruct (scan _ (specializations v) 0 cMaxSpecializations) as [i|] eqn:E.
  - destruct (scan_Some _ _ _ _ _ E) as (Hr & Hi & _).
    apply Z.eqb_eq in Hi.
    exists true. split; [done|]. split; (split; [intros _ | done]).
    + exists i. split; [lia | by apply Hraw].
    + apply (Hsuffix i); [lia | lia | by apply Hraw].
  - rewrite scan_None in E.
    assert (∀ i, (i < cMaxSpecializations)%nat →
                 f_class_id (class_data (specializations v i)) ≠ 0) as Hnone.
    { intros i Hi Hz. specialize (E i ltac:(lia)).
      apply Z.eqb_neq in E. apply E. by apply Hzero. }
    exists false. split; [done|]. split; (split; [done|]).
    + intros (i & Hi & Hz). by destruct (Hnone i Hi).
    + intros Hz. destruct (Hnone (Nat.pred cMaxSpecializations)); [lia | done].
Qed.

(** ** Internalization, further *)

(** X13. What a first successful [internalize] publishes: a machine code at
    an address not in use before, with the code's executor set to its
    fallback, which is the resolved primitive when there is one and what
    the argument-handler setup chose otherwise. Every other code object,
    every other machine code, the breakpoint tables and the log are left
    alone. *)
Theorem internalize_publishes `{Externals} (st : VM) (self : ref)
    (c : CompiledCode) :
  codes st !! self = Some c → machine_code c = None → verify c = true →
  ∃ p st1 c1 m1,
    internalize self st = Ok (Some p) st1 ∧
    mcodes st !! p = None ∧
    codes st1 !! self = Some c1 ∧ machine_code c1 = Some p ∧
    mcodes st1 !! p = Some m1 ∧ execute c1 = fallback m1 ∧
    (∀ prim, resolve_primitive c = Some prim → fallback m1 = prim) ∧
    (resolve_primitive c = None →
     m1 = setup_argument_handler (MachineCode_new c)) ∧
    (∀ r, r ≠ self → codes st1 !! r = codes st !! r) ∧
    (∀ q, q ≠ p → mcodes st1 !! q = mcodes st !! q) ∧
    tables st1 = tables st ∧ log st1 = log st.
Proof.
  intros Hc Hm Hv.
  set (p := fresh (dom (mcodes st))).
  assert (mcodes st !! p = None) as Hfresh
    by (apply not_elem_of_dom, is_fresh).
  unfold internalize. run.
  destruct (resolve_primitive c) as [prim|] eqn:Hr; run.
  all: eexists p, _, _, _; (split; [reflexivity|]); (split; [done|]); run.
  all: split; [reflexivity|]; split; [reflexivity|]; split; [reflexivity|].
  all: split; [reflexivity|].
  all: split; [by intros ? [= <-] || done|]; split; [done|].
  all: split; [intros r Hne; by rewrite !lookup_insert_ne|].
  all: split; [intros q Hne; by rewrite lookup_insert_ne|]; done.
Qed.

(** [internalize] never answers null. *)
Lemma internalize_non_null `{Externals} st self r st' :
  internalize self st = Ok r st' → r ≠ None.
Proof.
  intros Hrun. destruct (codes st !! self) as [c|] eqn:Hc.
  2:{ unfold internalize in Hrun. revert Hrun. run. done. }
  destruct (machine_code c) as [p|] eqn:Hm.
  - rewrite (internalize_present st self c p Hc Hm) in Hrun.
    by injection Hrun as <- _.
  - destruct (internalize_always st self c Hc Hm) as (p & st1 & c1 & m1 & E & _).
    rewrite E in Hrun. by injection Hrun as <- _.
Qed.

(** X14. [default_executor]: with another executor installed it passes
    control to that executor and changes nothing; with itself installed on
    a code object without machine code it internalizes first and then calls
    the fallback of the new machine code; and it never returns 0 without a
    call, [internalize] answering non-null whatever the verifier found. *)
Theorem default_executor_entry `{Externals} (st : VM) (self : ref)
    (c : CompiledCode) :
  codes st !! self = Some c →
  (∀ f, execute c = Some f → f ≠ fn_default_executor →
        default_executor self st = Ok (Some f) st) ∧
  (execute c = Some fn_default_executor → machine_code c = None →
   ∃ p st1 m1,
     internalize self st = Ok (Some p) st1 ∧ mcodes st1 !! p = Some m1 ∧
     default_executor self st = match fallback m1 with
                                | Some f => Ok (Some f) st1
                                | None => Fault
                                end) ∧
  (∀ st', default_executor self st ≠ Ok None st').
Proof.
  intros Hc. split_and!.
  - intros f Hf Hne. unfold default_executor. run.
    rewrite decide_False by congruence. run. done.
  - intros He Hm.
    destruct (internalize_always st self c Hc Hm)
      as (p & st1 & c1 & m1 & E & _ & Hcodes & Hm1 & Hex & _ & _ & Hmc & _).
    exists p, st1, m1. split; [done|]. split.
    { rewrite Hmc. apply lookup_insert_eq. }
    unfold default_executor. run. rewrite decide_True by done. run.
    rewrite bool_decide_eq_true_2 by done. run.
    rewrite Hcodes, lookup_insert_eq, Hex.
    by destruct (fallback m1).
  - intros st'. unfold default_executor. run.
    destruct (decide (execute c = Some fn_default_executor)) as [He|He].
    + run. destruct (internalize self st) as [r st1| |] eqn:E; [|done..].
      pose proof (internalize_non_null st self r st1 E) as Hr.
      rewrite bool_decide_eq_true_2 by done.
      destruct (codes st1 !! self) as [c1|]; [|done].
      by destruct (execute c1).
    + run. by destruct (execute c).
Qed.

(** X15. [call_sites] and [constant_caches] internalize on demand: on a
    code object not yet internalized whose bytecode verifies they run the
    verifier once and answer from the new machine code, and a second call
    answers the same and leaves the state as it is. *)
Theorem call_sites_on_demand `{Externals} (st : VM) (self : ref)
    (c : CompiledCode) :
  codes st !! self = Some c → machine_code c = None → verify c = true →
  ∃ p st1 m1,
    internalize self st = Ok (Some p) st1 ∧ mcodes st1 !! p = Some m1 ∧
    call_sites self st = Ok (MachineCode_call_sites m1) st1 ∧
    call_sites self st1 = Ok (MachineCode_call_sites m1) st1 ∧
    constant_caches self st = Ok (MachineCode_constant_caches m1) st1 ∧
    constant_caches self st1 = Ok (MachineCode_constant_caches m1) st1 ∧
    verifier_runs st1 = self :: verifier_runs st.
Proof.
  intros Hc Hm Hv.
  destruct (internalize_first st self c Hc Hm Hv)
    as (p & st1 & c1 & m1 & E & _ & Hcodes & Hm1 & _ & _ & _ & Hmc & _ & _
        & Hruns).
  assert (codes st1 !! self = Some c1) as Hc1
    by (rewrite Hcodes; apply lookup_insert_eq).
  assert (mcodes st1 !! p = Some m1) as Hp
    by (rewrite Hmc; apply lookup_insert_eq).
  exists p, st1, m1. split_and!; try done.
  - unfold call_sites. run. done.
  - unfold call_sites. run. done.
  - unfold constant_caches. run. done.
  - unfold constant_caches. run. done.
Qed.

(** X16. [internalize] does not depend on the verifier's answer: on any
    code object without machine code it runs the verifier once, publishes a
    machine code and answers it, never null; any number of further calls
    answer without running the verifier again or changing the state. *)
Theorem internalize_never_null `{Externals} (st : VM) (self : ref)
    (c : CompiledCode) :
  codes st !! self = Some c → machine_code c = None →
  ∃ p st1,
    internalize self st = Ok (Some p) st1 ∧
    internalized st1 self p ∧
    verifier_runs st1 = self :: verifier_runs st ∧
    ∀ k, perform_all (replicate k (api_internalize self)) st1 = Ok tt st1.
Proof.
  intros Hc Hm.
  destruct (internalize_always st self c Hc Hm)
    as (p & st1 & c1 & m1 & E & _ & Hcodes & Hm1 & _ & _ & _ & _ & _ & _
        & Hruns).
  assert (codes st1 !! self = Some c1) as Hc1
    by (rewrite Hcodes; apply lookup_insert_eq).
  exists p, st1. split; [done|]. split; [by exists c1|]. split; [done|].
  intros k. induction k as [|k IH]; [done|].
  cbn [replicate perform_all perform]. unfold bind at 1 2.
  rewrite (internalize_present st1 self c1 p Hc1 Hm1). cbn [ret]. exact IH.
Qed.

(** X17. No method takes a machine code away: across any sequence of calls
    of the methods, on any objects, a code object that holds a machine code
    still holds the same one ([dup] gives the copy none and leaves the
    original its own). *)
Theorem machine_code_never_cleared `{Externals} (calls : list api)
    (st st' : VM) (r p : ref) :
  perform_all calls st = Ok tt st' →
  internalized st r p → internalized st' r p.
Proof.
  intros Hcalls Hint.
  destruct (keeping_perform_all calls st tt st' Hcalls) as [Hkeep _].
  by apply Hkeep.
Qed.

(** ** Breakpoints, further *)

Lemma is_breakpoint_table `{Externals} st self c p v ip :
  codes st !! self = Some c → machine_code c = Some p →
  mcodes st !! p = Some v → validate_ip (opcodes v) (to_int ip) = true →
  (∀ t, breakpoints c = Some t → is_Some (tables st !! t)) →
  is_breakpoint self ip st
  = Ok (RBOOL (bool_decide (is_Some (breakpoint_table st c !! ip)))) st.
Proof.
  intros Hc Hm Hv Hip Hwf. unfold breakpoint_table.
  destruct (breakpoints c) as [t|] eqn:Hb.
  - destruct (Hwf t eq_refl) as [tb Ht]. rewrite Ht. simpl.
    by apply (is_breakpoint_run st self c p v t tb ip).
  - rewrite (is_breakpoint_no_table st self c p v ip) by done.
    rewrite bool_decide_eq_false_2; [done|].
    rewrite lookup_empty. by intros [? ?].
Qed.

(** [set_breakpoint], with the table the code object had before. *)
Lemma set_breakpoint_table `{Externals} st self c p v ip x :
  codes st !! self = Some c → machine_code c = Some p →
  mcodes st !! p = Some v → validate_ip (opcodes v) (to_int ip) = true →
  (∀ t, breakpoints c = Some t → is_Some (tables st !! t)) →
  ∃ st1 c1 t,
    set_breakpoint self ip x st = Ok (Fixnum ip) st1 ∧
    codes st1 !! self = Some c1 ∧ machine_code c1 = Some p ∧
    breakpoints c1 = Some t ∧
    tables st1 !! t = Some (<[ip := x]> (breakpoint_table st c)) ∧
    mcodes st1 !! p = Some (set_run debugger_interpreter (set_debugging 1 v)).
Proof.
  intros Hc Hm Hv Hip Hwf. unfold set_breakpoint, breakpoint_table. run.
  destruct (breakpoints c) as [t|] eqn:Hb.
  - destruct (Hwf t eq_refl) as [tb Ht]. run.
    eexists _, c, t. split; [reflexivity|]. run.
    rewrite ?lookup_insert_eq. done.
  - run.
    eexists _, _, _. split; [reflexivity|]. run.
    rewrite ?lookup_insert_eq. done.
Qed.

Lemma invalid_ip_refused_aux `{Externals} st self c p v ip x :
  codes st !! self = Some c → machine_code c = Some p →
  mcodes st !! p = Some v → validate_ip (opcodes v) (to_int ip) = false →
  set_breakpoint self ip x st = Ok Primitives_failure st ∧
  clear_breakpoint self ip st = Ok Primitives_failure st.
Proof.
  intros Hc Hm Hv Hip. split.
  - unfold set_breakpoint. run. done.
  - unfold clear_breakpoint. run. done.
Qed.

(** X18. An ip that is not an instruction boundary is refused: on an
    internalized code object [set_breakpoint], [clear_breakpoint] and
    [is_breakpoint] answer the failure sentinel and change nothing. *)
Theorem invalid_ip_refused `{Externals} (st : VM) (self : ref)
    (c : CompiledCode) (p : ref) (v : MachineCode) (ip : Z) (x : Object) :
  codes st !! self = Some c → machine_code c = Some p →
  mcodes st !! p = Some v → validate_ip (opcodes v) (to_int ip) = false →
  set_breakpoint self ip x st = Ok Primitives_failure st ∧
  clear_breakpoint self ip st = Ok Primitives_failure st ∧
  is_breakpoint self ip st = Ok Primitives_failure st.
Proof.
  intros Hc Hm Hv Hip. split_and!.
  - unfold set_breakpoint. run. done.
  - unfold clear_breakpoint. run. done.
  - unfold is_breakpoint. run. done.
Qed.

(** X19. Setting a breakpoint at one ip does not change the answer of
    [is_breakpoint] at another. *)
Theorem set_breakpoint_elsewhere `{Externals} (st : VM) (self : ref)
    (c : CompiledCode) (p : ref) (v : MachineCode) (ip ip' : Z)
    (x : Object) :
  codes st !! self = Some c → machine_code c = Some p →
  mcodes st !! p = Some v →
  validate_ip (opcodes v) (to_int ip) = true →
  validate_ip (opcodes v) (to_int ip') = true →
  (∀ t, breakpoints c = Some t → is_Some (tables st !! t)) →
  ip' ≠ ip →
  ∃ st1 r,
    set_breakpoint self ip x st = Ok (Fixnum ip) st1 ∧
    is_breakpoint self ip' st = Ok r st ∧
    is_breakpoint self ip' st1 = Ok r st1.
Proof.
  intros Hc Hm Hv Hip Hip' Hwf Hne.
  destruct (set_breakpoint_table st self c p v ip x Hc Hm Hv Hip Hwf)
    as (st1 & c1 & t & Hset & Hc1 & Hm1 & Hb1 & Ht1 & Hv1).
  exists st1, (RBOOL (bool_decide (is_Some (breakpoint_table st c !! ip')))).
  split; [done|]. split; [by apply (is_breakpoint_table st self c p v)|].
  rewrite (is_breakpoint_run st1 self c1 p _ t _ ip' Hc1 Hm1 Hv1 Hip' Hb1 Ht1).
  by rewrite lookup_insert_ne.
Qed.


(** X21. Debugging mode lasts as long as the breakpoints: if the machine
    code of [self] is in debugging mode whenever [self] has a breakpoint,
    the same holds after any [set_breakpoint] or [clear_breakpoint] on
    [self]. In particular clearing one of two breakpoints leaves the
    debugging interpreter in place. *)
Theorem debugging_while_breakpoints_kept `{Externals} (st : VM) (self : ref)
    (c : CompiledCode) (p : ref) (v : MachineCode) (ip : Z) (x : Object) :
  codes st !! self = Some c → machine_code c = Some p →
  mcodes st !! p = Some v →
  (∀ t, breakpoints c = Some t → is_Some (tables st !! t)) →
  debugging_while_breakpoints st self →
  (∀ r st1, set_breakpoint self ip x st = Ok r st1 →
            debugging_while_breakpoints st1 self) ∧
  (∀ r st2, clear_breakpoint self ip st = Ok r st2 →
            debugging_while_breakpoints st2 self).
Proof.
  intros Hc Hm Hv Hwf Hinv.
  destruct (validate_ip (opcodes v) (to_int ip)) eqn:Hip.
  2:{ destruct (invalid_ip_refused_aux st self c p v ip x Hc Hm Hv Hip)
        as [Hs Hcl].
      split; intros r st' Hrun; [rewrite Hs in Hrun | rewrite Hcl in Hrun];
        injection Hrun as _ <-; exact Hinv. }
  split.
  - intros r st1 Hrun.
    destruct (set_breakpoint_table st self c p v ip x Hc Hm Hv Hip Hwf)
      as (st1' & c1 & t & Hset & Hc1 & Hm1 & Hb1 & Ht1 & Hv1).
    rewrite Hset in Hrun. injection Hrun as _ <-.
    intros c' p' v' t' tb' Hc' Hm' Hv' Hb' Ht' _.
    rewrite Hc1 in Hc'. injection Hc' as <-.
    rewrite Hm1 in Hm'. injection Hm' as <-.
    rewrite Hv1 in Hv'. injection Hv' as <-. done.
  - intros r st2 Hrun.
    destruct (breakpoints c) as [t|] eqn:Hb.
    + destruct (Hwf t eq_refl) as [tb Ht].
      destruct (clear_breakpoint_run st self c p v t tb ip Hc Hm Hv Hip Hb Ht)
        as (st2' & v2 & Hclr & Hcodes & Ht2 & Hv2 & _ & _ & Hrest).
      rewrite Hclr in Hrun. injection Hrun as _ <-.
      intros c' p' v' t' tb' Hc' Hm' Hv' Hb' Ht' Hne.
      rewrite Hcodes, Hc in Hc'. injection Hc' as <-.
      rewrite Hm in Hm'. injection Hm' as <-.
      rewrite Hb in Hb'. injection Hb' as <-.
      rewrite Ht2 in Ht'. injection Ht' as <-.
      assert (size (delete ip tb) ≠ O) as Hsz.
      { intros Hz. by apply map_size_empty_inv in Hz. }
      rewrite (Hrest Hsz) in Hv2. rewrite Hv2 in Hv'. injection Hv' as <-.
      apply (Hinv c p v t tb Hc Hm Hv Hb Ht).
      intros ->. by rewrite delete_empty in Hne.
    + rewrite (clear_breakpoint_no_table st self c p v ip) in Hrun by done.
      injection Hrun as _ <-. exact Hinv.
Qed.

(** ** Opcode references under the collector *)

Lemma mark_references_frame_aux {G} (mark : ObjectMark G) code refs ops g
    ops' g' :
  mark_references mark code refs ops g = Some (ops', g') →
  length ops' = length ops ∧ ops' !! O = ops !! O ∧
  ∀ j, j ∉ refs → ops' !! j = ops !! j.
Proof.
  revert ops g. induction refs as [|ip refs IH]; intros ops g; simpl.
  - intros [= <- <-]. done.
  - destruct ip as [|n].
    + intros Hrun. destruct (IH _ _ Hrun) as (Hl & H0 & Hfr).
      split_and!; try done. intros j Hj. apply Hfr.
      intros Hin. apply Hj. by right.
    + destruct (ops !! S n) as [ref|] eqn:Hip; [|done].
      destruct (mark_call mark ref g) as [u g1].
      destruct (u =? 0).
      * intros Hrun. destruct (IH _ _ Hrun) as (Hl & H0 & Hfr).
        split_and!; try done. intros j Hj. apply Hfr.
        intros Hin. apply Hj. by right.
      * intros Hrun. destruct (IH _ _ Hrun) as (Hl & H0 & Hfr).
        rewrite length_insert in Hl.
        rewrite list_lookup_insert_ne in H0 by done.
        split_and!; try done. intros j Hj.
        apply not_elem_of_cons in Hj as [Hne Hj].
        rewrite (Hfr j Hj). by apply list_lookup_insert_ne.
Qed.

Lemma mark_references_still {G} (mark : ObjectMark G) code refs ops g
    ops' g' :
  (∀ r g0, (mark_call mark r g0).1 = 0) →
  mark_references mark code refs ops g = Some (ops', g') → ops' = ops.
Proof.
  intros Hstill. revert ops g.
  induction refs as [|ip refs IH]; intros ops g; simpl.
  - by intros [= <- <-].
  - destruct ip as [|n]; [apply IH|].
    destruct (ops !! S n) as [ref|]; [|done].
    pose proof (Hstill ref g) as Hu.
    destruct (mark_call mark ref g) as [u g1]. simpl in Hu. subst u. simpl.
    apply IH.
Qed.

(** X22. The collector's walk over the opcode references keeps the stream
    in shape: its length is unchanged, position 0 is never written, and no
    position outside [references] is written; and when the collector moved
    nothing the stream is unchanged altogether. *)
Theorem mark_references_frame {G} (mark : ObjectMark G) (code : ref)
    (refs : list nat) (ops ops' : list Z) (g g' : G) :
  mark_references mark code refs ops g = Some (ops', g') →
  length ops' = length ops ∧ ops' !! O = ops !! O ∧
  (∀ j, j ∉ refs → ops' !! j = ops !! j) ∧
  ((∀ r g0, (mark_call mark r g0).1 = 0) → ops' = ops).
Proof.
  intros Hrun.
  destruct (mark_references_frame_aux mark code refs ops g ops' g' Hrun)
    as (Hl & H0 & Hfr).
  split_and!; try done.
  intros Hstill. by eapply mark_references_still.
Qed.

(** X23. The walk comes to an end with a result exactly when every
    non-zero reference lies inside the opcode stream. *)
Theorem mark_references_defined {G} (mark : ObjectMark G) (code : ref)
    (refs : list nat) (ops : list Z) (g : G) :
  is_Some (mark_references mark code refs ops g) ↔
  ∀ ip, ip ∈ refs → ip ≠ O → (ip < length ops)%nat.
Proof.
  revert ops g. induction refs as [|ip refs IH]; intros ops g; simpl.
  - split; [|by eexists]. intros _ ip Hin. by apply elem_of_nil in Hin.
  - destruct ip as [|n].
    + rewrite IH. split.
      * intros Hall ip Hin Hne.
        apply elem_of_cons in Hin as [->|Hin]; [done | by apply Hall].
      * intros Hall ip Hin. apply Hall. by right.
    + destruct (ops !! S n) as [ref|] eqn:Hip.
      * apply lookup_lt_Some in Hip as Hlt.
        destruct (mark_call mark ref g) as [u g1].
        destruct (u =? 0); rewrite IH, ?length_insert; split.
        all: try (intros Hall ip Hin Hne;
                  apply elem_of_cons in Hin as [->|Hin];
                  [done | by apply Hall]).
        all: intros Hall ip Hin; apply Hall; by right.
      * apply lookup_ge_None in Hip. split; [by intros [? ?]|].
        intros Hall. specialize (Hall (S n) ltac:(left) ltac:(done)). lia.
Qed.

(** X24. With no position listed twice, a listed position ends up holding
    what the collector answered for the reference found there, or that
    reference itself when the collector answered null. *)
Theorem mark_references_written {G} (mark : ObjectMark G) (code : ref)
    (refs : list nat) (ops ops' : list Z) (g g' : G) (ip : nat) (old : Z) :
  mark_references mark code refs ops g = Some (ops', g') →
  NoDup refs → ip ∈ refs → ip ≠ O → ops !! ip = Some old →
  ∃ g0, ops' !! ip
        = Some (if (mark_call mark old g0).1 =? 0 then old
                else (mark_call mark old g0).1).
Proof.
  revert ops g. induction refs as [|r refs IH]; intros ops g Hrun Hnd Hin Hne Hold.
  { by apply elem_of_nil in Hin. }
  apply NoDup_cons in Hnd as [Hr Hnd]. simpl in Hrun.
  apply elem_of_cons in Hin as [->|Hin].
  - destruct r as [|n]; [done|]. rewrite Hold in Hrun.
    exists g. destruct (mark_call mark old g) as [u g1] eqn:Hcall. simpl.
    destruct (u =? 0).
    + destruct (mark_references_frame_aux _ _ _ _ _ _ _ Hrun) as (_ & _ & Hfr).
      by rewrite (Hfr _ Hr).
    + destruct (mark_references_frame_aux _ _ _ _ _ _ _ Hrun) as (_ & _ & Hfr).
      rewrite (Hfr _ Hr). apply list_lookup_insert_eq.
      by eapply lookup_lt_Some.
  - destruct r as [|n]; [by eapply IH|].
    destruct (ops !! S n) as [ref|] eqn:Hip; [|done].
    destruct (mark_call mark ref g) as [u g1].
    destruct (u =? 0); [by eapply IH|].
    eapply IH; [done | done | done | done |].
    rewrite list_lookup_insert_ne; [done|]. intros <-. done.
Qed.

(** ** File names *)

Lemma char_code_inj a b : char_code a = char_code b → a = b.
Proof.
  unfold char_code. intros Hc. apply Nat2Z.inj_iff || idtac.
  apply N2Z.inj in Hc.
  rewrite <- (Ascii.ascii_N_embedding a), <- (Ascii.ascii_N_embedding b).
  by rewrite Hc.
Qed.

Lemma strncmp_step a r1 b r2 n :
  char_code b ≠ 0 →
  strncmp (String.String a r1) (String.String b r2) (S n) = 0 ↔
  a = b ∧ strncmp r1 r2 n = 0.
Proof.
  intros Hb. cbn [strncmp].
  destruct (Z.eqb_spec (char_code a) (char_code b)) as [Heq|Hne].
  - apply char_code_inj in Heq as ->.
    replace (char_code b =? 0) with false by (symmetry; by apply Z.eqb_neq).
    split; [done | by intros [_ ?]].
  - split; [lia|]. intros [-> _]. done.
Qed.

(** X25. [core_method] answers true exactly for the code objects whose file
    name begins with "core/". *)
Theorem core_method_prefix (cpp_str : Symbol → string) (c : CompiledCode) :
  core_method cpp_str c = true ↔
  ∃ rest, cpp_str (file c) = String.append "core/" rest.
Proof.
  unfold core_method. cbv zeta. generalize (cpp_str (file c)). intros s.
  rewrite andb_true_iff, Z.leb_le, Z.eqb_eq. split.
  - intros [Hlen Hcmp].
    destruct s as [|c1 [|c2 [|c3 [|c4 [|c5 rest]]]]]; simpl in Hlen; try lia.
    apply strncmp_step in Hcmp as [-> Hcmp]; [|done].
    apply strncmp_step in Hcmp as [-> Hcmp]; [|done].
    apply strncmp_step in Hcmp as [-> Hcmp]; [|done].
    apply strncmp_step in Hcmp as [-> Hcmp]; [|done].
    apply strncmp_step in Hcmp as [-> Hcmp]; [|done].
    by exists rest.
  - intros [rest ->]. split.
    + simpl. lia.
    + cbn [String.append].
      do 5 (apply strncmp_step; [done|]; split; [done|]).
      reflexivity.
Qed.

(** ** The further properties at work on the small virtual machine *)

Lemma line_fails_iff_empty_witness :
  lines demo_empty_lines = Some [] ∧ line demo_empty_lines 3 = None.
Proof.
  split; [reflexivity|].
  apply (line_fails_iff_empty demo_empty_lines 3 [] eq_refl). reflexivity.
Defined.

Lemma line_is_recorded_witness :
  lines demo_good = Some (flat [(0, 10); (4, 12); (9, 15)]) ∧
  ∃ p, p ∈ [(0, 10); (4, 12); (9, 15)] ∧ line demo_good 5 = Some (to_int p.2).
Proof.
  split; [reflexivity|].
  apply (line_is_recorded demo_good [(0, 10); (4, 12); (9, 15)] 5 eq_refl).
  discriminate.
Defined.

Lemma line_ascending_last_start_witness :
  lines demo_good = Some (flat [(0, 10); (4, 12); (9, 15)]) ∧
  4 <= 5 ∧ 5 < 9 ∧ line demo_good 5 = Some 12.
Proof.
  split; [reflexivity|]. split; [lia|]. split; [lia|].
  apply (line_ascending_last_start demo_good [(0, 10); (4, 12); (9, 15)] 5
           1%nat (4, 12) eq_refl demo_lines_ascending eq_refl).
  - simpl. lia.
  - intros q Hq. simpl in Hq. injection Hq as <-. simpl. lia.
Defined.

Lemma start_line_first_pair_witness :
  start_line demo_good = Some 10 ∧ line demo_good 2 = start_line demo_good ∧
  start_line demo_empty_lines = Some (-1) ∧
  start_line demo_bad = Some (-1).
Proof.
  destruct (start_line_first_pair demo_good) as (_ & _ & _ & _ & Hpairs).
  destruct (Hpairs (0, 10) [(4, 12); (9, 15)] eq_refl) as (Hs & _ & Hfirst).
  split; [exact Hs|]. split; [|split].
  - apply (Hfirst (4, 12) 2 eq_refl). simpl. lia.
  - destruct (start_line_first_pair demo_empty_lines) as (_ & _ & Hshort & _).
    apply (Hshort [] eq_refl). simpl. lia.
  - destruct (start_line_first_pair demo_bad) as (_ & Hnil & _).
    exact (Hnil eq_refl).
Defined.

Lemma find_specialized_registered_witness :
  codes demo_internalized !! 1%positive = Some demo_good_code ∧
  data demo_class = class_data_of 7 1 ∧
  ∃ st1,
    @add_specialized demo 1%positive 7 1 (Some (fn_other 1)) None
      demo_internalized = Ok tt st1 ∧
    @find_specialized demo 1%positive demo_class st1
    = Ok (Some (fn_other 1)) st1.
Proof.
  split; [reflexivity|]. split; [reflexivity|].
  apply (@find_specialized_registered demo demo_internalized 1%positive
           demo_good_code 1%positive demo_good_mcode demo_class 7 1
           (Some (fn_other 1)) None eq_refl eq_refl eq_refl
           ltac:(simpl; lia) (u32_small 7 ltac:(lia)) (u32_small 1 ltac:(lia))
           eq_refl).
Defined.

Lemma demo_registered_find :
  @find_specialized demo 1%positive demo_class demo_registered
  = Ok (Some (fn_other 1)) demo_registered.
Proof. vm_compute. reflexivity. Defined.

Lemma find_specialized_agrees_witness :
  @find_specialized demo 1%positive demo_class demo_registered
  = Ok (Some (fn_other 1)) demo_registered ∧
  @specialized_executor demo 1%positive demo_class demo_registered
  = Ok (fn_other 1) demo_registered ∧
  @primitive_failed demo 1%positive demo_class demo_registered
  = Ok (fn_other 1) demo_registered.
Proof.
  split; [exact demo_registered_find|].
  exact (@find_specialized_agrees demo demo_registered demo_registered
           1%positive demo_class (fn_other 1) demo_registered_find).
Defined.

Lemma primitive_failed_total_witness :
  codes demo_internalized !! 1%positive = Some demo_good_code ∧
  ∃ f, @primitive_failed demo 1%positive demo_class demo_internalized
       = Ok f demo_internalized.
Proof.
  split; [reflexivity|].
  destruct (@primitive_failed_total demo demo_internalized 1%positive
              demo_good_code 1%positive demo_good_mcode demo_class
              eq_refl eq_refl eq_refl) as (f & Hrun & _).
  exists f. exact Hrun.
Defined.

Lemma set_unspecialized_installs_witness :
  codes demo_internalized !! 1%positive = Some demo_good_code ∧
  ∃ st1 c1,
    @set_unspecialized demo 1%positive (Some (fn_other 3)) None
      demo_internalized = Ok tt st1 ∧
    codes st1 !! 1%positive = Some c1 ∧
    execute c1 = Some (fn_other 3) ∧
    @specialized_executor demo 1%positive demo_class st1
    = Ok (fn_other 3) st1.
Proof.
  split; [reflexivity|].
  destruct (@set_unspecialized_installs demo demo_internalized 1%positive
              demo_good_code 1%positive demo_good_mcode (fn_other 3) None
              eq_refl eq_refl eq_refl)
    as (st1 & c1 & v1 & Hrun & Hc1 & _ & _ & _ & _ & _ & _ & _ & Hempty & _
        & Hmiss).
  exists st1, c1. split; [exact Hrun|]. split; [exact Hc1|]. split.
  - apply Hempty. split; [|reflexivity]. intros i _. simpl. lia.
  - apply Hmiss. intros i _. vm_compute. discriminate.
Defined.

Lemma no_backend_witness :
  codes (demo_vm demo_good) !! 1%positive = Some demo_good ∧
  machine_code demo_good = None ∧
  @can_specialize_p demo 1%positive (demo_vm demo_good)
  = Bug "specializing with no backend" ∧
  @find_specialized demo 1%positive demo_class (demo_vm demo_good)
  = Ok None (demo_vm demo_good).
Proof.
  split; [reflexivity|]. split; [reflexivity|].
  destruct (@no_backend demo (demo_vm demo_good) 1%positive demo_good None
              None demo_class eq_refl eq_refl) as (Hcan & _ & Hfind).
  split; [exact Hcan | exact Hfind].
Defined.

Lemma demo_cache_wf : cache_wf 8 (specializations demo_good_mcode).
Proof.
  split; [|split].
  - intros i j _ _ Hnz. by destruct Hnz.
  - intros i j _ _ _. reflexivity.
  - intros i _ _. reflexivity.
Defined.

Lemma demo_registered_cache_wf :
  cache_wf 8 (specializations demo_registered_mcode).
Proof.
  split; [|split].
  - intros i j _ _ Hnz Heq.
    destruct i as [|i]; [|by destruct Hnz].
    destruct j as [|j]; [reflexivity|]. vm_compute in Heq. discriminate.
  - intros i j Hij _ Hz.
    destruct i as [|i]; [vm_compute in Hz; discriminate|].
    destruct j as [|j]; [lia | reflexivity].
  - intros i _ Hz.
    destruct i as [|i]; [vm_compute in Hz; discriminate | reflexivity].
Defined.

Lemma add_specialized_keeps_cache_wf_witness :
  cache_wf 8 (specializations demo_good_mcode) ∧ 7 ≠ 0 ∧
  ∃ st1 v1,
    @add_specialized demo 1%positive 7 1 (Some (fn_other 1)) None
      demo_internalized = Ok tt st1 ∧
    mcodes st1 !! 1%positive = Some v1 ∧
    cache_wf 8 (specializations v1).
Proof.
  split; [exact demo_cache_wf|]. split; [lia|].
  apply (@add_specialized_keeps_cache_wf demo demo_internalized 1%positive
           demo_good_code 1%positive demo_good_mcode 7 1 (Some (fn_other 1))
           None eq_refl eq_refl eq_refl
           (u32_small 7 ltac:(lia)) (u32_small 1 ltac:(lia)) ltac:(lia)
           demo_cache_wf).
Defined.

Lemma add_specialized_in_place_witness :
  mcodes demo_registered !! 1%positive = Some demo_registered_mcode ∧
  f_class_id (class_data (specializations demo_registered_mcode 0)) = 7 ∧
  ∃ st1 v1,
    @add_specialized demo 1%positive 7 2 (Some (fn_other 2)) None
      demo_registered = Ok tt st1 ∧
    mcodes st1 !! 1%positive = Some v1 ∧
    f_serial_id (class_data (specializations v1 0)) = 2 ∧
    spec_execute (specializations v1 0) = Some (fn_other 2).
Proof.
  split; [vm_compute; reflexivity|]. split; [reflexivity|].
  destruct (@add_specialized_in_place demo demo_registered 1%positive
              (set_executor (Some fn_specialized_executor) demo_good_code)
              1%positive demo_registered_mcode O 7 2 (Some (fn_other 2)) None
              ltac:(vm_compute; reflexivity) eq_refl
              ltac:(vm_compute; reflexivity)
              (u32_small 7 ltac:(lia)) (u32_small 2 ltac:(lia)) ltac:(lia)
              demo_registered_cache_wf ltac:(simpl; lia) eq_refl)
    as (st1 & v1 & Hrun & _ & Hv1 & _ & Hs & He & _).
  exists st1, v1. repeat (split; [assumption|]). assumption.
Defined.

Lemma can_specialize_p_free_slot_witness :
  cache_wf 8 (specializations demo_good_mcode) ∧
  @can_specialize_p demo 1%positive demo_internalized
  = Ok true demo_internalized.
Proof.
  split; [exact demo_cache_wf|].
  destruct (@can_specialize_p_free_slot demo demo_internalized 1%positive
              demo_good_code 1%positive demo_good_mcode
              eq_refl eq_refl eq_refl ltac:(simpl; lia) demo_cache_wf)
    as (b & Hrun & _ & Hlast).
  assert (b = true) as -> by (apply Hlast; reflexivity).
  exact Hrun.
Defined.

Lemma internalize_publishes_witness :
  codes (demo_vm demo_good) !! 1%positive = Some demo_good ∧
  @verify demo demo_good = true ∧
  ∃ p st1 c1 m1,
    @internalize demo 1%positive (demo_vm demo_good) = Ok (Some p) st1 ∧
    codes st1 !! 1%positive = Some c1 ∧ mcodes st1 !! p = Some m1 ∧
    execute c1 = fallback m1 ∧ tables st1 = tables (demo_vm demo_good).
Proof.
  split; [reflexivity|]. split; [reflexivity|].
  destruct (@internalize_publishes demo (demo_vm demo_good) 1%positive
              demo_good eq_refl eq_refl eq_refl)
    as (p & st1 & c1 & m1 & Hrun & _ & Hc1 & _ & Hm1 & Hex & _ & _ & _ & _
        & Ht & _).
  exists p, st1, c1, m1. repeat (split; [assumption|]). assumption.
Defined.

Lemma default_executor_entry_witness :
  codes (demo_vm demo_bad) !! 1%positive = Some demo_bad ∧
  codes demo_internalized !! 1%positive = Some demo_good_code ∧
  @default_executor demo 1%positive demo_internalized
  = Ok (Some fn_MachineCode_execute) demo_internalized ∧
  ∃ p st1 m1,
    @internalize demo 1%positive (demo_vm demo_bad) = Ok (Some p) st1 ∧
    mcodes st1 !! p = Some m1 ∧
    @default_executor demo 1%positive (demo_vm demo_bad)
    = match fallback m1 with
      | Some f => Ok (Some f) st1
      | None => Fault
      end.
Proof.
  split; [reflexivity|]. split; [reflexivity|]. split.
  - destruct (@default_executor_entry demo demo_internalized 1%positive
                demo_good_code eq_refl) as (Hother & _).
    apply Hother; [reflexivity | discriminate].
  - destruct (@default_executor_entry demo (demo_vm demo_bad) 1%positive
                demo_bad eq_refl) as (_ & Hfirst & _).
    exact (Hfirst eq_refl eq_refl).
Defined.

Lemma call_sites_on_demand_witness :
  codes (demo_vm demo_good) !! 1%positive = Some demo_good ∧
  @verify demo demo_good = true ∧
  ∃ st1,
    @call_sites demo 1%positive (demo_vm demo_good) = Ok cNil st1 ∧
    @call_sites demo 1%positive st1 = Ok cNil st1 ∧
    verifier_runs st1 = [1%positive].
Proof.
  split; [reflexivity|]. split; [reflexivity|].
  destruct (@call_sites_on_demand demo (demo_vm demo_good) 1%positive
              demo_good eq_refl eq_refl eq_refl)
    as (p & st1 & m1 & _ & _ & H1 & H2 & _ & _ & Hruns).
  exists st1. split; [exact H1|]. split; [exact H2 | exact Hruns].
Defined.

Lemma internalize_never_null_witness :
  codes (demo_vm demo_bad) !! 1%positive = Some demo_bad ∧
  machine_code demo_bad = None ∧
  @verify demo demo_bad = false ∧
  ∃ p st1,
    @internalize demo 1%positive (demo_vm demo_bad) = Ok (Some p) st1 ∧
    verifier_runs st1 = [1%positive] ∧
    @perform_all demo (replicate 3 (api_internalize 1%positive)) st1
    = Ok tt st1.
Proof.
  split; [reflexivity|]. split; [reflexivity|]. split; [reflexivity|].
  destruct (@internalize_never_null demo (demo_vm demo_bad) 1%positive
              demo_bad eq_refl eq_refl) as (p & st1 & Hrun & _ & Hruns & Hmore).
  exists p, st1. split; [exact Hrun|]. split; [exact Hruns | exact (Hmore 3%nat)].
Defined.

Lemma demo_calls_run :
  @perform_all demo demo_calls demo_internalized = Ok tt demo_after_calls.
Proof. vm_compute. reflexivity. Defined.

Lemma machine_code_never_cleared_witness :
  @perform_all demo demo_calls demo_internalized = Ok tt demo_after_calls ∧
  internalized demo_internalized 1%positive 1%positive ∧
  internalized demo_after_calls 1%positive 1%positive.
Proof.
  assert (internalized demo_internalized 1%positive 1%positive) as Hint.
  { exists demo_good_code. split; reflexivity. }
  split; [exact demo_calls_run|]. split; [exact Hint|].
  exact (@machine_code_never_cleared demo demo_calls demo_internalized
           demo_after_calls 1%positive 1%positive demo_calls_run Hint).
Defined.

Lemma invalid_ip_refused_witness :
  codes demo_internalized !! 1%positive = Some demo_good_code ∧
  @validate_ip demo (opcodes demo_good_mcode) (to_int 9) = false ∧
  @set_breakpoint demo 1%positive 9 cTrue demo_internalized
  = Ok Primitives_failure demo_internalized ∧
  @is_breakpoint demo 1%positive 9 demo_internalized
  = Ok Primitives_failure demo_internalized.
Proof.
  split; [reflexivity|]. split; [reflexivity|].
  destruct (@invalid_ip_refused demo demo_internalized 1%positive
              demo_good_code 1%positive demo_good_mcode 9 cTrue
              eq_refl eq_refl eq_refl eq_refl) as (Hset & _ & Hq).
  split; [exact Hset | exact Hq].
Defined.

Lemma set_breakpoint_elsewhere_witness :
  codes demo_internalized !! 1%positive = Some demo_good_code ∧ 2 ≠ 4 ∧
  ∃ st1 r,
    @set_breakpoint demo 1%positive 4 cTrue demo_internalized
    = Ok (Fixnum 4) st1 ∧
    @is_breakpoint demo 1%positive 2 demo_internalized
    = Ok r demo_internalized ∧
    @is_breakpoint demo 1%positive 2 st1 = Ok r st1.
Proof.
  split; [reflexivity|]. split; [lia|].
  apply (@set_breakpoint_elsewhere demo demo_internalized 1%positive
           demo_good_code 1%positive demo_good_mcode 4 2 cTrue
           eq_refl eq_refl eq_refl eq_refl eq_refl
           ltac:(intros t Ht; discriminate Ht) ltac:(lia)).
Defined.


Lemma demo_debugging_while_breakpoints :
  debugging_while_breakpoints demo_internalized 1%positive.
Proof.
  intros c p v t tb Hc _ _ Hb _ _.
  vm_compute in Hc. injection Hc as <-. discriminate Hb.
Defined.

Lemma debugging_while_breakpoints_kept_witness :
  debugging_while_breakpoints demo_internalized 1%positive ∧
  ∀ r st1,
    @set_breakpoint demo 1%positive 4 cTrue demo_internalized = Ok r st1 →
    debugging_while_breakpoints st1 1%positive.
Proof.
  split; [exact demo_debugging_while_breakpoints|].
  destruct (@debugging_while_breakpoints_kept demo demo_internalized
              1%positive demo_good_code 1%positive demo_good_mcode 4 cTrue
              eq_refl eq_refl eq_refl
              ltac:(intros t Ht; discriminate Ht)
              demo_debugging_while_breakpoints) as [Hset _].
  exact Hset.
Defined.

Lemma demo_mark_run :
  mark_references demo_mark 1%positive [O; 2%nat] [5; 6; 100; 8] []
  = Some ([5; 6; 200; 8], [200]).
Proof. reflexivity. Defined.

Lemma mark_references_frame_witness :
  mark_references demo_mark 1%positive [O; 2%nat] [5; 6; 100; 8] []
  = Some ([5; 6; 200; 8], [200]) ∧
  length [5; 6; 200; 8] = length [5; 6; 100; 8] ∧
  [5; 6; 200; 8] !! 1%nat = [5; 6; 100; 8] !! 1%nat.
Proof.
  split; [exact demo_mark_run|].
  destruct (mark_references_frame demo_mark 1%positive [O; 2%nat]
              [5; 6; 100; 8] [5; 6; 200; 8] [] [200] demo_mark_run)
    as (Hl & _ & Hfr & _).
  split; [exact Hl|]. apply Hfr.
  intros Hin. apply elem_of_cons in Hin as [Hin|Hin]; [discriminate|].
  apply elem_of_cons in Hin as [Hin|Hin]; [discriminate|].
  by apply elem_of_nil in Hin.
Defined.

Lemma mark_references_written_witness :
  mark_references demo_mark 1%positive [O; 2%nat] [5; 6; 100; 8] []
  = Some ([5; 6; 200; 8], [200]) ∧
  ∃ g0, [5; 6; 200; 8] !! 2%nat
        = Some (if (mark_call demo_mark 100 g0).1 =? 0 then 100
                else (mark_call demo_mark 100 g0).1).
Proof.
  split; [exact demo_mark_run|].
  apply (mark_references_written demo_mark 1%positive [O; 2%nat]
           [5; 6; 100; 8] [5; 6; 200; 8] [] [200] 2%nat 100 demo_mark_run).
  - apply NoDup_cons. split.
    + intros Hin. apply list_elem_of_singleton in Hin. discriminate.
    + apply NoDup_singleton.
  - right. left.
  - discriminate.
  - reflexivity.
Defined.
